(** * The Markdown-to-HTML converter of [md_to_pdf.py]

    A shallow embedding of [md_to_html] (the block segmenter with its
    closure [flush]) and of [process_inline] (the three [re.sub] passes),
    followed by the properties of the converter.

    Python strings are sequences of Unicode code points: a character is
    its code point, a string is a list of characters. *)

From Stdlib Require Import Ascii String DecimalString.
From Stdlib Require Import List NArith ZArith Arith Bool Lia.
Import ListNotations.

Local Open Scope N_scope.

(** ** Text *)

Definition char := N.
Definition str := list char.

(** A literal of the source.  Every literal of [md_to_pdf.py] that is
    embedded here is plain ASCII, where a byte is its code point. *)
Definition py (s : string) : str := map N_of_ascii (list_ascii_of_string s).

Definition NL : char := 10.   (* '\n' *)
Definition CR : char := 13.   (* '\r' *)
Definition HASH : char := 35. (* '#' *)
Definition STAR : char := 42. (* '*' *)
Definition UNDER : char := 95. (* '_' *)
Definition TICK : char := 96. (* '`' *)

(** [str.isspace] on one character, which is also what [\s] matches in a
    [str] pattern: the ASCII white space 0x09-0x0D, 0x1C-0x20 and the
    Unicode white space 0x85, 0xA0, 0x1680, 0x2000-0x200A, 0x2028, 0x2029,
    0x202F, 0x205F, 0x3000. *)
Definition isspace (c : char) : bool :=
  ((9 <=? c) && (c <=? 13)) || ((28 <=? c) && (c <=? 32))
  || (c =? 133) || (c =? 160) || (c =? 5760)
  || ((8192 <=? c) && (c <=? 8202))
  || (c =? 8232) || (c =? 8233) || (c =? 8239) || (c =? 8287)
  || (c =? 12288).

(** [s.lstrip()], [s.rstrip()], [s.strip()] without argument. *)
Fixpoint lstrip (s : str) : str :=
  match s with
  | [] => []
  | c :: t => if isspace c then lstrip t else s
  end.

Definition rstrip (s : str) : str := rev (lstrip (rev s)).

Definition strip (s : str) : str := rstrip (lstrip s).

(** [s.startswith(p)]. *)
Fixpoint startswith (p s : str) : bool :=
  match p, s with
  | [], _ => true
  | _ :: _, [] => false
  | a :: p', b :: s' => (a =? b) && startswith p' s'
  end.

(** [s.split('\n')]: never empty, the empty string gives one empty line. *)
Fixpoint split_nl (s : str) : list str :=
  match s with
  | [] => [[]]
  | c :: t =>
      if c =? NL then [] :: split_nl t
      else match split_nl t with
           | l :: ls => (c :: l) :: ls
           | [] => [[c]]
           end
  end.

(** [sep.join(parts)]. *)
Fixpoint join (sep : str) (parts : list str) : str :=
  match parts with
  | [] => []
  | [p] => p
  | p :: ps => p ++ sep ++ join sep ps
  end.

(** [str(n)] for a non-negative integer, as the f-strings format
    [level]. *)
Definition str_of_nat (n : nat) : str :=
  py (NilZero.string_of_uint (Nat.to_uint n)).

(** ** The inline formatter *)

(** The tail [(.*?)\1] of the three patterns, once the opening delimiter
    [d] is consumed: the lazy group grows one character at a time, the
    closing delimiter is tried first at each step, and [.] refuses a
    newline.  The result is the text of the lazy group and what follows
    the closing delimiter. *)
Fixpoint lazy_until (d : str) (s : str) : option (str * str) :=
  if startswith d s then Some ([], skipn (length d) s)
  else match s with
       | [] => None
       | c :: t =>
           if c =? NL then None
           else match lazy_until d t with
                | Some (inner, rest) => Some (c :: inner, rest)
                | None => None
                end
       end.

(** One attempt of [(d1|d2|...)(.*?)\1] at the start of [s]: the
    alternatives are tried in order, and a failure of the tail falls back
    to the next alternative. *)
Fixpoint match_here (ds : list str) (s : str) : option (str * str) :=
  match ds with
  | [] => None
  | d :: ds' =>
      if startswith d s then
        match lazy_until d (skipn (length d) s) with
        | Some r => Some r
        | None => match_here ds' s
        end
      else match_here ds' s
  end.

(** [re.sub] with such a pattern and the template [opn \2 cls]: the
    leftmost match is replaced and the scan resumes after it; where the
    pattern does not match, the character is copied.  A match is never
    empty, so [fuel] = the length of the text is enough. *)
Fixpoint sub_from (fuel : nat) (ds : list str) (opn cls : str) (s : str)
  : str :=
  match fuel with
  | O => s
  | S f =>
      match s with
      | [] => []
      | x :: t =>
          match match_here ds s with
          | Some (inner, rest) =>
              opn ++ inner ++ cls ++ sub_from f ds opn cls rest
          | None => x :: sub_from f ds opn cls t
          end
      end
  end.

Definition re_sub (ds : list str) (opn cls : str) (s : str) : str :=
  sub_from (length s) ds opn cls s.

Definition sub_strong : str -> str :=
  re_sub [py "**"; py "__"] (py "<strong>") (py "</strong>").

Definition sub_em : str -> str :=
  re_sub [py "*"; py "_"] (py "<em>") (py "</em>").

Definition sub_code : str -> str :=
  re_sub [py "`"] (py "<code>") (py "</code>").

Definition process_inline (text : str) : str :=
  let text := sub_strong text in
  let text := sub_em text in
  let text := sub_code text in
  text.

(** ** The block segmenter *)

(** [n] literal ['#'] at the start of [s]; what follows them. *)
Fixpoint hashes (n : nat) (s : str) : option str :=
  match n with
  | O => Some s
  | S n' =>
      match s with
      | c :: t => if c =? HASH then hashes n' t else None
      | [] => None
      end
  end.

(** [.*] : the longest prefix without a newline. *)
Fixpoint dot_star (s : str) : str :=
  match s with
  | [] => []
  | c :: t => if c =? NL then [] else c :: dot_star t
  end.

(** The header pattern for one repetition count [n]: [n] hashes, then
    [\s+] (greedy: all the white space there is, at least one), then the
    greedy dot group up to the next newline.  The result is the length of
    group 1 and the text of group 2. *)
Definition header_try (n : nat) (s : str) : option (nat * str) :=
  match hashes n s with
  | Some (w :: r) =>
      if isspace w then Some (n, dot_star (lstrip r)) else None
  | _ => None
  end.

(** [re.match] with the header pattern on [s]: the greedy repetition
    [#{1,6}] tries six hashes first and backtracks down to one. *)
Fixpoint first_header (ns : list nat) (s : str) : option (nat * str) :=
  match ns with
  | [] => None
  | n :: ns' =>
      match header_try n s with
      | Some r => Some r
      | None => first_header ns' s
      end
  end.

Definition header_match (s : str) : option (nat * str) :=
  first_header [6; 5; 4; 3; 2; 1]%nat s.

(** The three variables the closure [flush] shares with the loop. *)
Record seg : Type := Seg {
  html_parts : list str;
  current_paragraph : list str;
  current_list : list str
}.

Definition seg_init : seg := Seg [] [] [].

Definition ul_block (items : list str) : str :=
  py "<ul>" ++ concat items ++ py "</ul>".

Definition p_block (p_content : str) : str :=
  py "<p>" ++ process_inline p_content ++ py "</p>".

Definition h_block (level : nat) (content : str) : str :=
  py "<h" ++ str_of_nat level ++ py ">" ++ process_inline content
  ++ py "</h" ++ str_of_nat level ++ py ">".

Definition li_item (content : str) : str :=
  py "<li>" ++ process_inline content ++ py "</li>".

Definition flush_list (st : seg) : seg :=
  match current_list st with
  | [] => st
  | _ :: _ =>
      Seg (html_parts st ++ [ul_block (current_list st)])
          (current_paragraph st) []
  end.

Definition flush_paragraph (st : seg) : seg :=
  match current_paragraph st with
  | [] => st
  | _ :: _ =>
      let p_content := strip (join (py " ") (current_paragraph st)) in
      match p_content with
      | [] => Seg (html_parts st) [] (current_list st)
      | _ :: _ =>
          Seg (html_parts st ++ [p_block p_content]) [] (current_list st)
      end
  end.

Definition flush (st : seg) : seg := flush_paragraph (flush_list st).

Definition is_list_item (stripped_line : str) : bool :=
  startswith (py "- ") stripped_line || startswith (py "* ") stripped_line.

(** The body of [for line in lines]. *)
Definition step_line (st : seg) (line : str) : seg :=
  let stripped_line := strip line in
  match stripped_line with
  | [] => flush st
  | _ :: _ =>
      match header_match stripped_line with
      | Some (level, g2) =>
          let st := flush st in
          let content := strip g2 in
          Seg (html_parts st ++ [h_block level content])
              (current_paragraph st) (current_list st)
      | None =>
          if is_list_item stripped_line then
            let st := match current_paragraph st with
                      | [] => st
                      | _ :: _ => flush st
                      end in
            Seg (html_parts st) (current_paragraph st)
                (current_list st
                 ++ [li_item (strip (skipn 2 stripped_line))])
          else
            let st := match current_list st with
                      | [] => st
                      | _ :: _ => flush st
                      end in
            Seg (html_parts st)
                (current_paragraph st ++ [stripped_line])
                (current_list st)
      end
  end.

(** The state after the loop has consumed [lines]. *)
Definition run_lines (lines : list str) : seg :=
  fold_left step_line lines seg_init.

Definition md_to_html (md_text : str) : str :=
  let lines := split_nl md_text in
  let st := run_lines lines in
  let st := flush st in
  join [NL] (html_parts st).

(** ** Vocabulary of the properties *)

(** [s.count(d)] for one character. *)
Fixpoint count (d : char) (s : str) : nat :=
  match s with
  | [] => 0%nat
  | c :: t => ((if (c =? d)%N then 1 else 0) + count d t)%nat
  end.

(** [d] occurs on the first line of [s], that is before any newline. *)
Fixpoint on_line (d : char) (s : str) : bool :=
  match s with
  | [] => false
  | c :: t => if c =? NL then false else (c =? d) || on_line d t
  end.

(** No line of [s] holds [d] twice: after an occurrence of [d] the rest
    of its line is free of [d].  Such a [d] has no partner to pair with. *)
Fixpoint lone (d : char) (s : str) : bool :=
  match s with
  | [] => true
  | c :: t => (if c =? d then negb (on_line d t) else true) && lone d t
  end.

(** [s.replace('\r\n', '\n')]. *)
Fixpoint replace_crlf (s : str) : str :=
  match s with
  | [] => []
  | c :: t =>
      match t with
      | c' :: t' =>
          if (c =? CR) && (c' =? NL) then NL :: replace_crlf t'
          else c :: replace_crlf t
      | [] => [c]
      end
  end.

(** The characters the three patterns use as delimiters. *)
Definition delimiters : list char := [STAR; UNDER; TICK].

(** The tags of an HTML fragment in order of appearance, and whether
    they nest: every closing tag closes the element opened last, and
    nothing stays open. *)
Inductive tag : Type :=
| Open (name : str)
| Close (name : str).

Definition tag_of (body : str) : tag :=
  match body with
  | c :: name => if c =? 47 then Close name else Open body
  | [] => Open []
  end.

(** [cur] is the text read since an unclosed ['<'], most recent first. *)
Fixpoint scan_tags (cur : option str) (s : str) : list tag :=
  match s with
  | [] => []
  | c :: t =>
      match cur with
      | None => if c =? 60 then scan_tags (Some []) t else scan_tags None t
      | Some acc =>
          if c =? 62 then tag_of (rev acc) :: scan_tags None t
          else scan_tags (Some (c :: acc)) t
      end
  end.

Fixpoint str_eqb (a b : str) : bool :=
  match a, b with
  | [], [] => true
  | x :: a', y :: b' => (x =? y) && str_eqb a' b'
  | _, _ => false
  end.

Fixpoint balanced (stack : list str) (ts : list tag) : bool :=
  match ts with
  | [] => match stack with [] => true | _ :: _ => false end
  | Open n :: ts' => balanced (n :: stack) ts'
  | Close n :: ts' =>
      match stack with
      | top :: stack' => str_eqb top n && balanced stack' ts'
      | [] => false
      end
  end.

Definition well_nested (html : str) : bool :=
  balanced [] (scan_tags None html).

(** The branch the loop body takes on a line. *)
Inductive kind : Type := Blank | Heading | ListItem | Plain.

Definition classify (line : str) : kind :=
  match strip line with
  | [] => Blank
  | _ :: _ =>
      match header_match (strip line) with
      | Some _ => Heading
      | None => if is_list_item (strip line) then ListItem else Plain
      end
  end.

(** At most one of the two pending buffers holds something. *)
Definition exclusive (st : seg) : Prop :=
  current_paragraph st = [] \/ current_list st = [].

(** What [replace] does to a line: nothing, or it removes the carriage
    return that ended it. *)
Definition same_or_cr (l' l : str) : Prop := l' = l \/ l = l' ++ [CR].

(** * The other scripts

    The pure parts of [translate_pdf.py], [web_to_md.py] and
    [run_gemini_translation.py].  What they get from outside (the pages
    of a PDF document, the answers of the translation service) is a
    parameter. *)

(** [p in s] for strings. *)
Fixpoint contains (p s : str) : bool :=
  startswith p s
  || match s with
     | [] => false
     | _ :: t => contains p t
     end.

(** [str(n)] for an integer. *)
Definition str_of_Z (n : Z) : str :=
  py (NilZero.string_of_int (Z.to_int n)).

(** [range(a, b)]. *)
Definition range (a b : Z) : list Z :=
  map (fun i => (a + Z.of_nat i)%Z) (seq 0 (Z.to_nat (b - a))).

Module translate_pdf.

(** The index of the last [c] in [l], or -1. *)
Fixpoint last_index (c : char) (l : str) : Z :=
  match l with
  | [] => (-1)%Z
  | x :: t =>
      let r := last_index c t in
      if (r =? -1)%Z then (if x =? c then 0%Z else (-1)%Z) else (r + 1)%Z
  end.

(** [text[a:b]] and [text.rfind(c, a, b)] for [0 <= a] and [0 <= b]. *)
Definition slice (text : str) (a b : nat) : str :=
  firstn (b - a) (skipn a text).

Definition rfind (c : char) (text : str) (a b : nat) : Z :=
  let r := last_index c (slice text a b) in
  if (r =? -1)%Z then (-1)%Z else (Z.of_nat a + r)%Z.

(** The value of [end] when an iteration appends [text[start:end]]: the
    position after the last newline of the window if that newline lies
    past the middle, the end of the window otherwise. *)
Definition next_end (text : str) (chunk_size start : nat) : nat :=
  let end_ := (start + chunk_size)%nat in
  let last_newline := rfind NL text start end_ in
  if negb (last_newline =? -1)%Z
     && (Z.of_nat (start + chunk_size / 2) <? last_newline)%Z
  then Z.to_nat (last_newline + 1)
  else end_.

(** The [while] loop of [chunk_text]; [chunk_size] is not negative (the
    only caller leaves the default, 3000).  The loop has no bound of its
    own: [None] is a run that is not over when [fuel] is. *)
Fixpoint chunk_loop (fuel : nat) (text : str) (chunk_size : nat)
  (chunks : list str) (start : nat) : option (list str) :=
  match fuel with
  | O => None
  | S fuel' =>
      if (start <? length text)%nat then
        if (length text <=? start + chunk_size)%nat then
          Some (chunks ++ [skipn start text])
        else
          let end_ := next_end text chunk_size start in
          chunk_loop fuel' text chunk_size
            (chunks ++ [slice text start end_]) end_
      else Some chunks
  end.

Definition chunk_text_fuel (fuel : nat) (text : str) (chunk_size : nat)
  : option (list str) :=
  chunk_loop fuel text chunk_size [] 0.

(** One iteration per character is enough when [chunk_size] is
    positive. *)
Definition chunk_text (text : str) (chunk_size : nat)
  : option (list str) :=
  chunk_text_fuel (S (length text)) text chunk_size.

(** What one call of [model.generate_content] followed by
    [response.text] does: it returns the text or raises an exception
    with a message. *)
Inductive outcome : Type :=
| Returned (text : str)
| Raised (message : str).

(** [translate_chunk_with_retry]: [answers k] is the outcome of the
    attempt number [k].  The result is the value returned and the
    arguments of [time.sleep], in order. *)
Fixpoint retry_loop (answers : nat -> outcome) (delay : nat)
  (attempt remaining : nat) : option str * list nat :=
  match remaining with
  | O => (None, [])
  | S remaining' =>
      match answers attempt with
      | Returned text => (Some text, [])
      | Raised message =>
          if contains (py "429") message then
            let wait_time := (delay * 2 ^ attempt)%nat in
            let (r, sleeps) :=
              retry_loop answers delay (S attempt) remaining' in
            (r, wait_time :: sleeps)
          else (None, [])
      end
  end.

Definition translate_chunk_with_retry (answers : nat -> outcome)
  (retries delay : nat) : option str * list nat :=
  retry_loop answers delay 0 retries.

(** The loop of [translate_text] over the chunks: [translate i chunk] is
    what [translate_chunk_with_retry] returns for the call number [i].
    The result is the text accumulated and the chunks that were sent. *)
Fixpoint translate_loop (translate : nat -> str -> option str)
  (i : nat) (chunks : list str) (translated_full : str)
  : str * list str :=
  match chunks with
  | [] => (translated_full, [])
  | chunk :: chunks' =>
      match translate i chunk with
      | Some ((_ :: _) as translated_chunk) =>
          let (r, sent) :=
            translate_loop translate (S i) chunks'
              (translated_full ++ translated_chunk ++ [NL]) in
          (r, chunk :: sent)
      | _ => (translated_full, [chunk])
      end
  end.

Definition translate_text (translate : nat -> str -> option str)
  (text : str) : option (str * list str) :=
  match strip text with
  | [] => Some ([], [])
  | _ :: _ =>
      match chunk_text text 3000 with
      | Some chunks => Some (translate_loop translate 0 chunks [])
      | None => None
      end
  end.

(** [extract_text] once the document is open: [total_pages] is
    [len(doc)] and [page_text n] the text of [doc.load_page(n)].  The
    pages loaded, and the text returned. *)
Definition pages_loaded (total_pages start_page end_page : Z) : list Z :=
  let start_page := if (start_page <? 1)%Z then 1%Z else start_page in
  let end_page :=
    if (total_pages <? end_page)%Z then total_pages else end_page in
  range (start_page - 1) end_page.

Definition extract_text (total_pages : Z) (page_text : Z -> str)
  (start_page end_page : Z) : str :=
  fold_left
    (fun full_text page_num =>
       (full_text
        ++ [NL; NL] ++ py "--- Page " ++ str_of_Z (page_num + 1)
        ++ py " ---" ++ [NL; NL])
       ++ page_text page_num)
    (pages_loaded total_pages start_page end_page) [].

End translate_pdf.

Module web_to_md.

(** The character class of the pattern of [sanitize_filename]:
    backslash, slash, star, question mark, colon, double quote, the two
    angle brackets and the bar. *)
Definition invalid_char (c : char) : bool :=
  existsb (N.eqb c) [92; 47; 42; 63; 58; 34; 60; 62; 124].

Definition sanitize_filename (name : str) : str :=
  let name := filter (fun c => negb (invalid_char c)) name in
  let name := strip (map (fun c => if c =? 32 then UNDER else c) name) in
  name.

End web_to_md.

Module run_gemini_translation.

(** [extract_text] once the document is open: [pages] are the texts
    [page.get_text()] of its pages, in order. *)
Definition extract_text (pages : list str) : str :=
  strip (fold_left (fun text page => text ++ page ++ [NL]) pages []).

End run_gemini_translation.

(** ** Vocabulary of the further properties *)

(** Neither end of [p] is white space, and [p] is not empty. *)
Definition trimmed (p : str) : Prop :=
  p <> [] /\ lstrip p = p /\ lstrip (rev p) = rev p.

(** The state of the segmenter holds no empty block and no line that
    would leave an empty paragraph. *)
Definition sound (st : seg) : Prop :=
  Forall (fun part => part <> []) (html_parts st)
  /\ Forall trimmed (current_paragraph st).

(** Something was emitted or is pending. *)
Definition has_content (st : seg) : Prop :=
  html_parts st <> [] \/ current_paragraph st <> []
  \/ current_list st <> [].

(** An attempt that [translate_chunk_with_retry] answers with a sleep
    and a new attempt: an exception whose message holds "429". *)
Definition rate_limited (o : translate_pdf.outcome) : bool :=
  match o with
  | translate_pdf.Returned _ => false
  | translate_pdf.Raised message => contains (py "429") message
  end.

(** * Properties *)

(** ** Prefixes and the lazy group *)

Lemma startswith_split (p s : str) :
  startswith p s = true -> s = p ++ skipn (length p) s.
Proof.
  revert s; induction p as [|a p IH]; intros [|b s] H; simpl in *;
    try reflexivity; try discriminate.
  apply andb_true_iff in H as [Hab Hp].
  apply N.eqb_eq in Hab; subst b.
  f_equal; apply IH, Hp.
Qed.

Lemma startswith_app (p r : str) : startswith p (p ++ r) = true.
Proof.
  induction p as [|a p IH]; simpl; [reflexivity|].
  rewrite N.eqb_refl; exact IH.
Qed.

Lemma lazy_until_eq (d s : str) :
  lazy_until d s =
  if startswith d s then Some ([], skipn (length d) s)
  else match s with
       | [] => None
       | c :: t =>
           if c =? NL then None
           else match lazy_until d t with
                | Some (inner, rest) => Some (c :: inner, rest)
                | None => None
                end
       end.
Proof. destruct s; reflexivity. Qed.

Lemma lazy_until_split (d s inner rest : str) :
  lazy_until d s = Some (inner, rest) ->
  s = inner ++ d ++ rest /\ ~ In NL inner.
Proof.
  revert inner rest; induction s as [|c t IH]; intros inner rest;
    rewrite lazy_until_eq.
  - destruct (startswith d []) eqn:E; [|discriminate].
    intros [= <- <-]. split; [|intros []].
    apply startswith_split in E. exact E.
  - destruct (startswith d (c :: t)) eqn:E.
    + intros [= <- <-]. split; [|intros []].
      apply startswith_split in E. exact E.
    + destruct (c =? NL) eqn:Ec; [discriminate|].
      destruct (lazy_until d t) as [[i r]|]; [|discriminate].
      intros [= <- <-].
      destruct (IH i r eq_refl) as [-> Hnl].
      split; [reflexivity|].
      intros [Hc|Hin]; [|exact (Hnl Hin)].
      apply N.eqb_neq in Ec. congruence.
Qed.

Lemma match_here_split (ds : list str) (s inner rest : str) :
  match_here ds s = Some (inner, rest) ->
  exists d, In d ds /\ s = d ++ inner ++ d ++ rest /\ ~ In NL inner
            /\ lazy_until d (inner ++ d ++ rest) = Some (inner, rest).
Proof.
  induction ds as [|d ds IH]; simpl; [discriminate|].
  destruct (startswith d s) eqn:E.
  - destruct (lazy_until d (skipn (length d) s)) as [[i r]|] eqn:L.
    + intros [= <- <-]. exists d.
      destruct (lazy_until_split _ _ _ _ L) as [Hs Hnl].
      apply startswith_split in E.
      repeat split; [now left | | exact Hnl | ].
      * rewrite E at 1. now rewrite Hs.
      * now rewrite <- Hs.
    + intros H. destruct (IH H) as (d' & Hin & Hrest).
      exists d'; split; [now right | exact Hrest].
  - intros H. destruct (IH H) as (d' & Hin & Hrest).
    exists d'; split; [now right | exact Hrest].
Qed.

Lemma match_here_none (ds : list str) (s d : str) :
  match_here ds s = None -> In d ds -> startswith d s = true ->
  lazy_until d (skipn (length d) s) = None.
Proof.
  induction ds as [|d' ds IH]; simpl; [intros _ []|].
  intros H [->|Hin] Hd.
  - rewrite Hd in H.
    destruct (lazy_until d (skipn (length d) s)); [discriminate|reflexivity].
  - apply IH; [|exact Hin|exact Hd].
    destruct (startswith d' s); [|exact H].
    destruct (lazy_until d' (skipn (length d') s)); [discriminate|exact H].
Qed.

(** ** One substitution pass *)

Section Pass.

Variable ds : list str.
Variables opn cls : str.

(** No delimiter is empty: a match consumes at least one character. *)
Hypothesis ds_nonempty : forall d, In d ds -> d <> [].

Lemma match_here_shorter (s inner rest : str) :
  match_here ds s = Some (inner, rest) -> (length rest < length s)%nat.
Proof.
  intros H. destruct (match_here_split _ _ _ _ H) as (d & Hin & -> & _).
  specialize (ds_nonempty d Hin).
  destruct d; [congruence|].
  rewrite !length_app. simpl. lia.
Qed.

Lemma sub_from_fuel (n m : nat) (s : str) :
  (length s <= n)%nat -> (length s <= m)%nat ->
  sub_from n ds opn cls s = sub_from m ds opn cls s.
Proof.
  revert m s; induction n as [|n IH]; intros [|m] [|x t] Hn Hm;
    simpl in Hn, Hm; try lia; try reflexivity.
  cbn [sub_from].
  destruct (match_here ds (x :: t)) as [[inner rest]|] eqn:M.
  - apply match_here_shorter in M. simpl in M.
    do 3 f_equal. apply IH; lia.
  - f_equal. apply IH; lia.
Qed.

Lemma re_sub_nil : re_sub ds opn cls [] = [].
Proof. reflexivity. Qed.

Lemma re_sub_cons (x : char) (t : str) :
  re_sub ds opn cls (x :: t) =
  match match_here ds (x :: t) with
  | Some (inner, rest) => opn ++ inner ++ cls ++ re_sub ds opn cls rest
  | None => x :: re_sub ds opn cls t
  end.
Proof.
  unfold re_sub. cbn [length sub_from].
  destruct (match_here ds (x :: t)) as [[inner rest]|] eqn:M.
  - apply match_here_shorter in M. simpl in M.
    do 3 f_equal. apply sub_from_fuel; lia.
  - reflexivity.
Qed.

(** Induction along the scan of [re.sub]. *)
Lemma re_sub_ind (P : str -> str -> Prop) :
  P [] [] ->
  (forall d inner rest,
      In d ds -> ~ In NL inner ->
      lazy_until d (inner ++ d ++ rest) = Some (inner, rest) ->
      P rest (re_sub ds opn cls rest) ->
      P (d ++ inner ++ d ++ rest)
        (opn ++ inner ++ cls ++ re_sub ds opn cls rest)) ->
  (forall x t,
      match_here ds (x :: t) = None ->
      P t (re_sub ds opn cls t) ->
      P (x :: t) (x :: re_sub ds opn cls t)) ->
  forall s, P s (re_sub ds opn cls s).
Proof.
  intros Hnil Hmatch Hcopy s.
  remember (length s) as n eqn:Hn.
  revert s Hn; induction n as [n IH] using lt_wf_ind; intros s ->.
  destruct s as [|x t]; [exact Hnil|].
  rewrite re_sub_cons.
  destruct (match_here ds (x :: t)) as [[inner rest]|] eqn:M.
  - pose proof (match_here_shorter _ _ _ M) as Hlt.
    destruct (match_here_split _ _ _ _ M) as (d & Hin & Hs & Hnl & L).
    rewrite Hs. apply Hmatch; try assumption.
    eapply IH; [exact Hlt|reflexivity].
  - apply Hcopy; [exact M|].
    eapply IH; [|reflexivity]. simpl; lia.
Qed.

End Pass.

(** ** Occurrences of a character, line by line *)

Section Lines.

Variable d : char.

Lemma on_line_absent (p : str) : ~ In d p -> on_line d p = false.
Proof.
  induction p as [|a p IH]; simpl; [reflexivity|]; intros H.
  destruct (a =? NL); [reflexivity|].
  destruct (N.eqb_spec a d) as [->|_]; [exfalso; apply H; now left|].
  apply IH. intros Hin. apply H. now right.
Qed.

Lemma on_line_app (p x : str) :
  ~ In NL p -> on_line d (p ++ x) = on_line d p || on_line d x.
Proof.
  induction p as [|a p IH]; simpl; [reflexivity|]; intros H.
  destruct (N.eqb_spec a NL) as [->|_]; [exfalso; apply H; now left|].
  rewrite IH, orb_assoc; [reflexivity|].
  intros Hin. apply H. now right.
Qed.

Lemma on_line_In (p : str) : on_line d p = true -> In d p.
Proof.
  induction p as [|a p IH]; simpl; [discriminate|].
  destruct (a =? NL); [discriminate|].
  destruct (N.eqb_spec a d) as [->|_]; [now left|].
  intros H. right. apply IH, H.
Qed.

Lemma lone_absent (p x : str) : ~ In d p -> lone d (p ++ x) = lone d x.
Proof.
  induction p as [|a p IH]; simpl; [reflexivity|]; intros H.
  destruct (N.eqb_spec a d) as [->|_]; [exfalso; apply H; now left|].
  apply IH. intros Hin. apply H. now right.
Qed.

Lemma lone_app (p x : str) :
  ~ In NL p ->
  lone d (p ++ x) =
  lone d p && (negb (on_line d p) || negb (on_line d x)) && lone d x.
Proof.
  induction p as [|a p IH]; simpl; [reflexivity|]; intros H.
  assert (Hp : ~ In NL p) by (intros Hin; apply H; now right).
  destruct (N.eqb_spec a NL) as [->|_]; [exfalso; apply H; now left|].
  rewrite IH, on_line_app by exact Hp.
  destruct (a =? d), (on_line d p), (on_line d x), (lone d p), (lone d x);
    reflexivity.
Qed.

Lemma lone_tail (p x : str) : lone d (p ++ x) = true -> lone d x = true.
Proof.
  induction p as [|a p IH]; simpl; [easy|].
  intros H. apply andb_true_iff in H as [_ H]. apply IH, H.
Qed.

(** Two occurrences of [d] with no newline in between are not [lone]. *)
Lemma lone_pair (u v w : str) :
  d <> NL -> ~ In NL v -> lone d (u ++ d :: v ++ d :: w) = false.
Proof.
  intros Hd Hv.
  destruct (lone d (u ++ d :: v ++ d :: w)) eqn:E; [|reflexivity].
  apply lone_tail in E. simpl in E.
  rewrite N.eqb_refl, on_line_app in E by exact Hv.
  simpl in E. rewrite N.eqb_refl in E.
  apply N.eqb_neq in Hd. rewrite Hd in E.
  rewrite orb_true_r in E. discriminate.
Qed.

End Lines.

Lemma count_app (d : char) (p x : str) :
  count d (p ++ x) = (count d p + count d x)%nat.
Proof.
  induction p as [|a p IH]; simpl; [reflexivity|]. rewrite IH. lia.
Qed.

Lemma count_absent (d : char) (p : str) : ~ In d p -> count d p = 0%nat.
Proof.
  induction p as [|a p IH]; simpl; [reflexivity|]; intros H.
  destruct (N.eqb_spec a d) as [->|_]; [exfalso; apply H; now left|].
  apply IH. intros Hin. apply H. now right.
Qed.

Lemma count_positive (d : char) (p : str) : (0 < count d p)%nat -> In d p.
Proof.
  induction p as [|a p IH]; simpl; [lia|].
  destruct (N.eqb_spec a d) as [->|_]; [now left|].
  intros H. right. apply IH, H.
Qed.

(** A matched span lies on one line and holds its delimiter twice. *)
Lemma lone_delims (e : char) (d inner rest : str) :
  e <> NL -> In e d -> ~ In NL d -> ~ In NL inner ->
  lone e (d ++ inner ++ d ++ rest) = false.
Proof.
  intros He Hin Hd Hi.
  destruct (in_split _ _ Hin) as (a & b & ->).
  replace ((a ++ e :: b) ++ inner ++ (a ++ e :: b) ++ rest)
    with (a ++ e :: (b ++ inner ++ a) ++ e :: (b ++ rest))
    by (repeat (rewrite <- app_assoc; simpl); reflexivity).
  apply lone_pair; [exact He|].
  intros H. apply in_app_or in H as [H|H].
  - apply Hd, in_or_app. right. now right.
  - apply in_app_or in H as [H|H]; [exact (Hi H)|].
    apply Hd, in_or_app. now left.
Qed.

(** With a one-character delimiter the lazy group stops at the first
    occurrence, and fails exactly when the line has none. *)
Lemma lazy_until_first (e : char) (s inner rest : str) :
  lazy_until [e] s = Some (inner, rest) -> ~ In e inner.
Proof.
  revert inner rest; induction s as [|c t IH]; intros inner rest;
    rewrite lazy_until_eq; simpl; [discriminate|].
  destruct (N.eqb_spec e c) as [->|Hec]; simpl.
  - intros [= <- <-]. intros [].
  - destruct (c =? NL); [discriminate|].
    destruct (lazy_until [e] t) as [[i r]|]; [|discriminate].
    intros [= <- <-]. intros [H|H]; [congruence|].
    exact (IH i r eq_refl H).
Qed.

Lemma lazy_until_none (e : char) (s : str) :
  lazy_until [e] s = None -> on_line e s = false.
Proof.
  induction s as [|c t IH]; rewrite lazy_until_eq; simpl;
    [reflexivity|].
  destruct (N.eqb_spec e c) as [->|Hec]; simpl; [discriminate|].
  destruct (c =? NL); [reflexivity|].
  destruct (lazy_until [e] t) as [[i r]|]; [discriminate|].
  intros _. rewrite IH by reflexivity.
  destruct (N.eqb_spec c e); [congruence|reflexivity].
Qed.

Section PassLines.

Variable ds : list str.
Variables opn cls : str.

Hypothesis ds_nonempty : forall d, In d ds -> d <> [].
Hypothesis ds_line : forall d, In d ds -> ~ In NL d.
Hypothesis opn_line : ~ In NL opn.
Hypothesis cls_line : ~ In NL cls.

Let sub := re_sub ds opn cls.

(** Where every delimiter holds a character that is [lone] in the
    text, the pattern matches nowhere and the text is returned as it
    is. *)
Lemma re_sub_fixed (t : str) :
  (forall d, In d ds -> exists e, e <> NL /\ In e d /\ lone e t = true) ->
  sub t = t.
Proof.
  unfold sub.
  induction t as [|x t IH]; intros H; [reflexivity|].
  rewrite re_sub_cons by exact ds_nonempty.
  destruct (match_here ds (x :: t)) as [[inner rest]|] eqn:M.
  - exfalso.
    destruct (match_here_split _ _ _ _ M) as (d & Hin & Hs & Hnl & _).
    destruct (H d Hin) as (e & He & Hed & Hl).
    rewrite Hs, lone_delims in Hl; auto. discriminate.
  - f_equal. apply IH. intros d Hin.
    destruct (H d Hin) as (e & He & Hed & Hl).
    exists e. repeat split; auto.
    exact (lone_tail e [x] t Hl).
Qed.

(** The characters of the output come from the text or from the tags. *)
Lemma re_sub_chars (x : char) (t : str) :
  ~ In x opn -> ~ In x cls -> ~ In x t -> ~ In x (sub t).
Proof.
  intros Ho Hc. unfold sub.
  apply (re_sub_ind ds opn cls ds_nonempty
           (fun s out => ~ In x s -> ~ In x out)).
  - easy.
  - intros d inner rest _ _ _ IH Hs Hout.
    repeat (apply in_app_or in Hout as [Hout|Hout]); auto.
    + apply Hs. apply in_or_app. right. apply in_or_app. now left.
    + apply IH; [|exact Hout]. intros Hr. apply Hs.
      apply in_or_app. right. apply in_or_app. right.
      apply in_or_app. now right.
  - intros c t' _ IH Hs [->|Hout]; [apply Hs; now left|].
    apply IH; [|exact Hout]. intros Hr. apply Hs. now right.
Qed.

Variable d : char.
Hypothesis d_opn : ~ In d opn.
Hypothesis d_cls : ~ In d cls.

(** Each match removes the delimiter twice: the parity of the number
    of [d] is kept. *)
Lemma re_sub_count_even (t : str) :
  exists k, count d t = (count d (sub t) + 2 * k)%nat.
Proof.
  unfold sub.
  apply (re_sub_ind ds opn cls ds_nonempty
           (fun s out => exists k, count d s = (count d out + 2 * k)%nat)).
  - exists 0%nat. reflexivity.
  - intros e inner rest _ _ _ [k IH].
    exists (count d e + k)%nat.
    rewrite !count_app, IH, (count_absent d opn), (count_absent d cls)
      by assumption. lia.
  - intros x t' _ [k IH]. exists k. simpl. rewrite IH. lia.
Qed.

Lemma re_sub_off_line (t : str) :
  on_line d t = false -> on_line d (sub t) = false.
Proof.
  unfold sub.
  apply (re_sub_ind ds opn cls ds_nonempty
           (fun s out => on_line d s = false -> on_line d out = false)).
  - easy.
  - intros e inner rest He Hi _ IH.
    specialize (ds_line e He).
    rewrite !on_line_app by assumption.
    rewrite (on_line_absent d opn), (on_line_absent d cls) by assumption.
    intros H. repeat (apply orb_false_iff in H as [? H]).
    rewrite IH by exact H. simpl.
    rewrite orb_false_r. assumption.
  - intros x t' _ IH. simpl.
    destruct (x =? NL); [easy|].
    intros H. apply orb_false_iff in H as [-> H]. now rewrite IH.
Qed.

(** A [lone] character is never taken as a delimiter: the pass keeps
    its occurrences, line by line. *)
Lemma re_sub_lone (t : str) :
  d <> NL -> lone d t = true ->
  lone d (sub t) = true /\ count d (sub t) = count d t
  /\ on_line d (sub t) = on_line d t.
Proof.
  intros Hd. unfold sub.
  apply (re_sub_ind ds opn cls ds_nonempty
           (fun s out => lone d s = true ->
              lone d out = true /\ count d out = count d s
              /\ on_line d out = on_line d s)).
  - easy.
  - intros e inner rest He Hi _ IH H.
    specialize (ds_line e He).
    assert (Hde : ~ In d e).
    { intros Hin. rewrite lone_delims in H; auto. discriminate. }
    revert H.
    rewrite (lone_absent d e), (lone_app d inner), (lone_absent d e),
      (lone_absent d opn), (lone_app d inner), (lone_absent d cls)
      by assumption.
    rewrite !count_app, !on_line_app by assumption.
    rewrite (count_absent d e), (count_absent d opn), (count_absent d cls),
      (on_line_absent d e), (on_line_absent d opn), (on_line_absent d cls)
      by assumption.
    simpl. intros H.
    apply andb_true_iff in H as [H Hr].
    destruct (IH Hr) as (-> & -> & ->).
    rewrite H. auto.
  - intros x t' _ IH. simpl. intros H.
    apply andb_true_iff in H as [H Hr].
    destruct (IH Hr) as (-> & -> & ->).
    rewrite H. auto.
Qed.

(** When [d] alone is a delimiter, and the text cannot match the other
    delimiters, what the pass leaves of [d] is [lone]. *)
Lemma re_sub_makes_lone (t : str) :
  In [d] ds ->
  (forall e, In e ds -> e = [d] \/ exists f, In f e /\ ~ In f t) ->
  lone d (sub t) = true.
Proof.
  intros Hd. unfold sub.
  apply (re_sub_ind ds opn cls ds_nonempty
           (fun s out =>
              (forall e, In e ds ->
                         e = [d] \/ exists f, In f e /\ ~ In f s) ->
              lone d out = true)).
  - easy.
  - intros e inner rest He Hi L IH H.
    destruct (H e He) as [->|(f & Hf & Hs)].
    + apply lazy_until_first in L.
      rewrite (lone_absent d opn), (lone_absent d inner),
        (lone_absent d cls) by assumption.
      apply IH. intros e' He'.
      destruct (H e' He') as [->|(f & Hf & Hs)]; [now left|].
      right. exists f. split; [exact Hf|].
      intros Hr. apply Hs. simpl. right.
      apply in_or_app. right. now right.
    + exfalso. apply Hs, in_or_app. now left.
  - intros x t' M IH H.
    assert (Ht : lone d (re_sub ds opn cls t') = true).
    { apply IH. intros e He.
      destruct (H e He) as [->|(f & Hf & Hs)]; [now left|].
      right. exists f. split; [exact Hf|].
      intros Hr. apply Hs. now right. }
    simpl. rewrite Ht, andb_true_r.
    destruct (N.eqb_spec x d) as [->|_]; [|reflexivity].
    apply negb_true_iff, re_sub_off_line, lazy_until_none.
    apply (match_here_none ds (d :: t') [d] M Hd).
    simpl. now rewrite N.eqb_refl.
Qed.

End PassLines.

(** ** The three passes of [process_inline] *)

(** Side conditions on the literal delimiters and tags. *)
Ltac cases_In :=
  repeat match goal with
         | H : In _ (_ :: _) |- _ => cbn [In] in H
         | H : _ \/ _ |- _ => destruct H as [H|H]
         | H : In _ [] |- _ => destruct H
         | H : False |- _ => destruct H
         end.

Ltac literal :=
  intros; unfold delimiters in *; cases_In; subst;
  cbv; intuition (try discriminate; try congruence).

Lemma delimiter_not_NL (d : char) : In d delimiters -> d <> NL.
Proof. literal. Qed.

Lemma lone_of_absent (d : char) (t : str) : ~ In d t -> lone d t = true.
Proof.
  intros H. rewrite <- (app_nil_r t). now rewrite lone_absent.
Qed.

(** A delimiter character that is [lone] in the text goes through each
    pass untouched. *)
Lemma sub_strong_lone (d : char) (t : str) :
  In d delimiters -> lone d t = true ->
  lone d (sub_strong t) = true /\ count d (sub_strong t) = count d t.
Proof.
  intros Hin H. pose proof (delimiter_not_NL d Hin) as Hd.
  destruct (re_sub_lone [py "**"; py "__"] (py "<strong>") (py "</strong>")
              ltac:(literal) ltac:(literal) ltac:(literal) ltac:(literal)
              d ltac:(literal) ltac:(literal) t Hd H) as (H1 & E1 & _).
  now split.
Qed.

Lemma sub_em_lone (d : char) (t : str) :
  In d delimiters -> lone d t = true ->
  lone d (sub_em t) = true /\ count d (sub_em t) = count d t.
Proof.
  intros Hin H. pose proof (delimiter_not_NL d Hin) as Hd.
  destruct (re_sub_lone [py "*"; py "_"] (py "<em>") (py "</em>")
              ltac:(literal) ltac:(literal) ltac:(literal) ltac:(literal)
              d ltac:(literal) ltac:(literal) t Hd H) as (H1 & E1 & _).
  now split.
Qed.

Lemma sub_code_lone (d : char) (t : str) :
  In d delimiters -> lone d t = true ->
  lone d (sub_code t) = true /\ count d (sub_code t) = count d t.
Proof.
  intros Hin H. pose proof (delimiter_not_NL d Hin) as Hd.
  destruct (re_sub_lone [py "`"] (py "<code>") (py "</code>")
              ltac:(literal) ltac:(literal) ltac:(literal) ltac:(literal)
              d ltac:(literal) ltac:(literal) t Hd H) as (H1 & E1 & _).
  now split.
Qed.

Lemma process_inline_lone (d : char) (t : str) :
  In d delimiters -> lone d t = true ->
  lone d (process_inline t) = true
  /\ count d (process_inline t) = count d t.
Proof.
  intros Hin H. unfold process_inline.
  destruct (sub_strong_lone d t Hin H) as [H1 E1].
  destruct (sub_em_lone d _ Hin H1) as [H2 E2].
  destruct (sub_code_lone d _ Hin H2) as [H3 E3].
  split; [exact H3|]. now rewrite E3, E2, E1.
Qed.

(** No pass introduces a delimiter character. *)
Lemma sub_strong_chars (d : char) (t : str) :
  In d delimiters -> ~ In d t -> ~ In d (sub_strong t).
Proof.
  intros Hin. apply re_sub_chars; literal.
Qed.

Lemma sub_em_chars (d : char) (t : str) :
  In d delimiters -> ~ In d t -> ~ In d (sub_em t).
Proof.
  intros Hin. apply re_sub_chars; literal.
Qed.

Lemma sub_code_chars (d : char) (t : str) :
  In d delimiters -> ~ In d t -> ~ In d (sub_code t).
Proof.
  intros Hin. apply re_sub_chars; literal.
Qed.

(** The three passes remove delimiter characters two at a time. *)
Lemma process_inline_count_even (d : char) (t : str) :
  In d delimiters ->
  exists k, count d t = (count d (process_inline t) + 2 * k)%nat.
Proof.
  intros Hin. unfold process_inline, sub_strong, sub_em, sub_code.
  destruct (re_sub_count_even [py "**"; py "__"] (py "<strong>")
              (py "</strong>") ltac:(literal) d ltac:(literal)
              ltac:(literal) t) as [k1 E1].
  destruct (re_sub_count_even [py "*"; py "_"] (py "<em>")
              (py "</em>") ltac:(literal) d ltac:(literal)
              ltac:(literal)
              (re_sub [py "**"; py "__"] (py "<strong>")
                 (py "</strong>") t)) as [k2 E2].
  destruct (re_sub_count_even [py "`"] (py "<code>")
              (py "</code>") ltac:(literal) d ltac:(literal)
              ltac:(literal)
              (re_sub [py "*"; py "_"] (py "<em>") (py "</em>")
                 (re_sub [py "**"; py "__"] (py "<strong>")
                    (py "</strong>") t))) as [k3 E3].
  exists (k1 + k2 + k3)%nat. lia.
Qed.

(** What the emphasis pass leaves of its delimiter is [lone], as long as
    the text does not use the other delimiter; the code pass has one
    delimiter only. *)
Lemma sub_em_star_lone (t : str) :
  ~ In UNDER t -> lone STAR (sub_em t) = true.
Proof.
  intros H. apply re_sub_makes_lone; try solve [literal].
  intros e He. cases_In; subst e; [now left|].
  right. exists UNDER. split; [now left|exact H].
Qed.

Lemma sub_em_under_lone (t : str) :
  ~ In STAR t -> lone UNDER (sub_em t) = true.
Proof.
  intros H. apply re_sub_makes_lone; try solve [literal].
  intros e He. cases_In; subst e; [|now left].
  right. exists STAR. split; [now left|exact H].
Qed.

Lemma sub_code_tick_lone (t : str) : lone TICK (sub_code t) = true.
Proof.
  apply re_sub_makes_lone; literal.
Qed.

Lemma sub_strong_fixed (t : str) :
  lone STAR t = true -> lone UNDER t = true -> sub_strong t = t.
Proof.
  intros Hs Hu. apply re_sub_fixed; try solve [literal].
  intros e He. cases_In; subst e.
  - exists STAR. repeat split; [literal|literal|exact Hs].
  - exists UNDER. repeat split; [literal|literal|exact Hu].
Qed.

Lemma sub_em_fixed (t : str) :
  lone STAR t = true -> lone UNDER t = true -> sub_em t = t.
Proof.
  intros Hs Hu. apply re_sub_fixed; try solve [literal].
  intros e He. cases_In; subst e.
  - exists STAR. repeat split; [literal|literal|exact Hs].
  - exists UNDER. repeat split; [literal|literal|exact Hu].
Qed.

Lemma sub_code_fixed (t : str) : lone TICK t = true -> sub_code t = t.
Proof.
  intros Ht. apply re_sub_fixed; try solve [literal].
  intros e He. cases_In; subst e.
  exists TICK. repeat split; [literal|literal|exact Ht].
Qed.

(** A text in which no delimiter has a partner on its line is a fixed
    point of the formatter. *)
Lemma process_inline_fixed (t : str) :
  lone STAR t = true -> lone UNDER t = true -> lone TICK t = true ->
  process_inline t = t.
Proof.
  intros Hs Hu Ht. unfold process_inline.
  now rewrite (sub_strong_fixed t), (sub_em_fixed t), (sub_code_fixed t).
Qed.

(** The lazy group takes the shortest span: the closing delimiter does
    not occur earlier. *)
Lemma lazy_until_shortest (d s inner rest : str) :
  lazy_until d s = Some (inner, rest) ->
  forall a b, inner = a ++ b -> b <> [] ->
              startswith d (b ++ d ++ rest) = false.
Proof.
  revert inner rest; induction s as [|c t IH]; intros inner rest;
    rewrite lazy_until_eq.
  - destruct (startswith d []); [|discriminate].
    intros [= <- <-] a b Hab Hb.
    symmetry in Hab. apply app_eq_nil in Hab as [_ ->]. congruence.
  - destruct (startswith d (c :: t)) eqn:E.
    + intros [= <- <-] a b Hab Hb.
      symmetry in Hab. apply app_eq_nil in Hab as [_ ->]. congruence.
    + destruct (c =? NL); [discriminate|].
      destruct (lazy_until d t) as [[i r]|] eqn:L; [|discriminate].
      intros [= <- <-] a b Hab Hb.
      destruct a as [|x a]; simpl in Hab.
      * subst b. apply lazy_until_split in L as [-> _]. exact E.
      * injection Hab as _ Hab. exact (IH i r eq_refl a b Hab Hb).
Qed.

(** ** The inline formatter: claims *)

(** C1 (as the spec states it, refuted): [process_inline] is not
    idempotent.  On ["*a_b*c_"] the emphasis pass pairs the two stars and
    scans on after the span, so the two underscores, one inside the span
    and one after it, stay; a second run pairs them. *)
Lemma process_inline_not_idempotent :
  process_inline (py "*a_b*c_") = py "<em>a_b</em>c_"
  /\ process_inline (py "<em>a_b</em>c_") = py "<em>a<em>b</em>c</em>"
  /\ process_inline (process_inline (py "*a_b*c_"))
     <> process_inline (py "*a_b*c_").
Proof.
  split; [vm_compute; reflexivity|].
  split; [vm_compute; reflexivity|].
  vm_compute. discriminate.
Qed.

(** C1 (amended): for every string [s] that does not use both emphasis
    delimiter characters, that is without ['*'] or without ['_'],
    [process_inline (process_inline s) = process_inline s]: in the output
    no line holds the same delimiter character twice, so nothing is left
    to match. *)
Theorem process_inline_idempotent (s : str) :
  ~ In STAR s \/ ~ In UNDER s ->
  process_inline (process_inline s) = process_inline s.
Proof.
  assert (Hs : In STAR delimiters) by (now left).
  assert (Hu : In UNDER delimiters) by (right; now left).
  intros H. apply process_inline_fixed; unfold process_inline.
  - (* '*' *)
    destruct H as [H|H].
    + apply lone_of_absent.
      now apply sub_code_chars, sub_em_chars, sub_strong_chars.
    + apply sub_code_lone; [exact Hs|].
      now apply sub_em_star_lone, sub_strong_chars.
  - (* '_' *)
    destruct H as [H|H].
    + apply sub_code_lone; [exact Hu|].
      now apply sub_em_under_lone, sub_strong_chars.
    + apply lone_of_absent.
      now apply sub_code_chars, sub_em_chars, sub_strong_chars.
  - apply sub_code_tick_lone.
Qed.

Lemma process_inline_idempotent_witness :
  process_inline (process_inline (py "**bold** and *it* and `code` *"))
  = process_inline (py "**bold** and *it* and `code` *").
Proof.
  apply (process_inline_idempotent (py "**bold** and *it* and `code` *")).
  right. vm_compute. intuition discriminate.
Defined.

(** C2 (as the spec states it, refuted): an opening [**] that nothing
    closes lacks a matching pair, and the strong rule does fail to match
    it, but it is not left as it is: the emphasis pass that follows
    pairs its two stars as an empty span.  ["**a"] gives [<em></em>a],
    with no star left. *)
Lemma unclosed_strong_not_literal :
  sub_strong (py "**a") = py "**a"
  /\ process_inline (py "**a") = py "<em></em>a"
  /\ count STAR (py "**a") = 2%nat
  /\ count STAR (process_inline (py "**a")) = 0%nat
  /\ process_inline (py "**a") <> py "**a"
  /\ process_inline (py "x = 2**10") = py "x = 2<em></em>10".
Proof.
  repeat split; try (vm_compute; reflexivity).
  vm_compute. discriminate.
Qed.

(** C2 (amended): a delimiter character with no second occurrence of
    the same character on its line stays in the output as it is.  For
    every text: (1) when no line holds the same delimiter character
    twice, no rule matches and the text is returned unchanged; (2) a
    delimiter character that no line holds twice keeps all its
    occurrences, whatever the other delimiters do; (3) when a delimiter
    character occurs an odd number of times, at least one occurrence is
    left in the output, since every match takes them in pairs. *)
Theorem unmatched_delimiters_literal (text : str) :
  (lone STAR text = true -> lone UNDER text = true ->
   lone TICK text = true -> process_inline text = text)
  /\ (forall d, In d delimiters -> lone d text = true ->
        count d (process_inline text) = count d text
        /\ lone d (process_inline text) = true)
  /\ (forall d, In d delimiters -> Nat.odd (count d text) = true ->
        In d (process_inline text)).
Proof.
  split; [apply process_inline_fixed|].
  split.
  - intros d Hd H. destruct (process_inline_lone d text Hd H). now split.
  - intros d Hd H.
    destruct (process_inline_count_even d text Hd) as [k E].
    apply count_positive.
    destruct (count d (process_inline text)); [|lia].
    apply Nat.odd_spec in H as [m Hm]. lia.
Qed.

Lemma unmatched_delimiters_literal_witness :
  process_inline (py "2 * 3 = snake_case") = py "2 * 3 = snake_case"
  /\ count UNDER (process_inline (py "*a_b*")) = 1%nat
  /\ In STAR (process_inline (py "*a*b*")).
Proof.
  split; [|split].
  - apply (proj1 (unmatched_delimiters_literal (py "2 * 3 = snake_case")));
      reflexivity.
  - apply (proj1 (proj2 (unmatched_delimiters_literal (py "*a_b*")))
             UNDER); [right; left; reflexivity | reflexivity].
  - apply (proj2 (proj2 (unmatched_delimiters_literal (py "*a*b*")))
             STAR); [left; reflexivity | reflexivity].
Defined.

(** C5: the strong pass runs first, then emphasis, then code; matching
    is lazy, the closing delimiter being the first one that follows.
    ["**a** and **b**"] gives two [<strong>] spans, and the strong pass
    consumes both double delimiters of ["**bold**"], leaving no star to
    the emphasis pass (which alone would pair them one by one). *)
Theorem strong_before_emphasis :
  (forall text, process_inline text = sub_code (sub_em (sub_strong text)))
  /\ (forall d s inner rest,
        lazy_until d s = Some (inner, rest) ->
        s = inner ++ d ++ rest
        /\ forall a b, inner = a ++ b -> b <> [] ->
                       startswith d (b ++ d ++ rest) = false)
  /\ sub_strong (py "**a** and **b**")
     = py "<strong>a</strong> and <strong>b</strong>"
  /\ process_inline (py "**a** and **b**")
     = py "<strong>a</strong> and <strong>b</strong>"
  /\ sub_strong (py "**bold**") = py "<strong>bold</strong>"
  /\ count STAR (sub_strong (py "**bold**")) = 0%nat
  /\ process_inline (py "**bold**") = py "<strong>bold</strong>"
  /\ sub_em (py "**bold**") = py "<em></em>bold<em></em>".
Proof.
  split; [reflexivity|].
  split.
  - intros d s inner rest L. split.
    + apply (lazy_until_split d s inner rest L).
    + apply (lazy_until_shortest d s inner rest L).
  - repeat split; vm_compute; reflexivity.
Qed.

Lemma strong_before_emphasis_witness :
  startswith (py "**") (py "a" ++ py "**" ++ py " and **b**") = false.
Proof.
  destruct strong_before_emphasis as (_ & H & _).
  destruct (H (py "**") (py "a** and **b**") (py "a") (py " and **b**")
              eq_refl) as [_ Hs].
  apply (Hs [] (py "a")); [reflexivity|discriminate].
Defined.

(** C10: a later pass can match across the tags of an earlier one.  On
    the text [**a`b** c`d] the code span opens inside the [<strong>]
    element and closes after it: the tags of the output do not nest. *)
Theorem passes_cross_tags :
  process_inline (py "**a`b** c`d")
  = py "<strong>a<code>b</strong> c</code>d"
  /\ scan_tags None (process_inline (py "**a`b** c`d"))
     = [Open (py "strong"); Open (py "code");
        Close (py "strong"); Close (py "code")]
  /\ well_nested (process_inline (py "**a`b** c`d")) = false.
Proof.
  repeat split; vm_compute; reflexivity.
Qed.

(** ** The block segmenter: the heading rule *)

Lemma hashes_spec (n : nat) (s x : str) :
  hashes n s = Some x <-> s = repeat HASH n ++ x.
Proof.
  revert s; induction n as [|n IH]; intros s; simpl.
  - split; [intros [= ->]; reflexivity | intros ->; reflexivity].
  - destruct s as [|c t]; [split; discriminate|].
    destruct (N.eqb_spec c HASH) as [->|Hc].
    + rewrite IH. split; [intros ->; reflexivity | intros [= ->]; reflexivity].
    + split; [discriminate | intros [= E _]; congruence].
Qed.

Lemma space_not_hash (w : char) : isspace w = true -> (w =? HASH) = false.
Proof.
  intros H. destruct (N.eqb_spec w HASH) as [->|_]; [|reflexivity].
  vm_compute in H. discriminate.
Qed.

Lemma header_try_spec (n : nat) (s : str) (m : nat) (g : str) :
  header_try n s = Some (m, g) <->
  m = n /\ exists w r, s = repeat HASH n ++ w :: r /\ isspace w = true
                       /\ g = dot_star (lstrip r).
Proof.
  unfold header_try. split.
  - destruct (hashes n s) as [[|w r]|] eqn:E; try discriminate.
    destruct (isspace w) eqn:Hw; [|discriminate].
    intros [= <- <-]. split; [reflexivity|].
    exists w, r. apply hashes_spec in E. auto.
  - intros (-> & w & r & -> & Hw & ->).
    rewrite (proj2 (hashes_spec n _ (w :: r)) eq_refl), Hw. reflexivity.
Qed.

(** More hashes than the line has cannot be matched. *)
Lemma header_try_more (n k : nat) (w : char) (r : str) :
  isspace w = true ->
  header_try (n + S k) (repeat HASH n ++ w :: r) = None.
Proof.
  intros Hw. unfold header_try.
  replace (hashes (n + S k) (repeat HASH n ++ w :: r)) with (@None str);
    [reflexivity|].
  induction n as [|n IH]; simpl.
  - now rewrite space_not_hash.
  - exact IH.
Qed.

Lemma header_match_spec (s : str) (n : nat) (g : str) :
  header_match s = Some (n, g) <->
  (1 <= n <= 6)%nat
  /\ exists w r, s = repeat HASH n ++ w :: r /\ isspace w = true
                 /\ g = dot_star (lstrip r).
Proof.
  unfold header_match, first_header. split.
  - intros H.
    repeat match type of H with
           | match header_try ?k s with _ => _ end = _ =>
               let E := fresh "E" in
               destruct (header_try k s) as [[m g']|] eqn:E;
               [ injection H as -> ->;
                 apply header_try_spec in E as (-> & Hex);
                 split; [lia|exact Hex]
               | ]
           end.
    discriminate.
  - intros (Hn & w & r & -> & Hw & ->).
    assert (T : forall m, (n < m)%nat ->
                header_try m (repeat HASH n ++ w :: r) = None).
    { intros m Hm. replace m with (n + S (m - n - 1))%nat by lia.
      now apply header_try_more. }
    assert (Y : header_try n (repeat HASH n ++ w :: r)
                = Some (n, dot_star (lstrip r))).
    { apply header_try_spec. split; [reflexivity|]. now exists w, r. }
    destruct n as [|[|[|[|[|[|[|n]]]]]]]; try lia.
    + rewrite (T 6%nat), (T 5%nat), (T 4%nat), (T 3%nat), (T 2%nat), Y
        by lia. reflexivity.
    + rewrite (T 6%nat), (T 5%nat), (T 4%nat), (T 3%nat), Y by lia.
      reflexivity.
    + rewrite (T 6%nat), (T 5%nat), (T 4%nat), Y by lia. reflexivity.
    + rewrite (T 6%nat), (T 5%nat), Y by lia. reflexivity.
    + rewrite (T 6%nat), Y by lia. reflexivity.
    + rewrite Y. reflexivity.
Qed.

Lemma lstrip_incl (x : char) (s : str) : In x (lstrip s) -> In x s.
Proof.
  induction s as [|c t IH]; simpl; [easy|].
  destruct (isspace c); [intros H; right; apply IH, H | easy].
Qed.

Lemma lstrip_idem (s : str) : lstrip (lstrip s) = lstrip s.
Proof.
  induction s as [|c t IH]; simpl; [reflexivity|].
  destruct (isspace c) eqn:E; [exact IH|].
  simpl. now rewrite E.
Qed.

Lemma dot_star_line (s : str) : ~ In NL s -> dot_star s = s.
Proof.
  induction s as [|c t IH]; simpl; [reflexivity|]; intros H.
  destruct (N.eqb_spec c NL) as [->|_]; [exfalso; apply H; now left|].
  f_equal. apply IH. intros Hin. apply H. now right.
Qed.

Lemma header_text_line (r : str) :
  ~ In NL r -> strip (dot_star (lstrip r)) = strip r.
Proof.
  intros H. rewrite dot_star_line.
  - unfold strip. now rewrite lstrip_idem.
  - intros Hin. apply H, lstrip_incl, Hin.
Qed.

(** ** The block segmenter: the loop body, branch by branch *)

Lemma flush_clears (st : seg) :
  current_paragraph (flush st) = [] /\ current_list (flush st) = [].
Proof.
  unfold flush, flush_paragraph, flush_list.
  destruct st as [h [|p ps] [|i il]]; simpl; auto;
    destruct (strip _); simpl; auto.
Qed.

Lemma flush_idle (st : seg) :
  current_paragraph st = [] -> current_list st = [] -> flush st = st.
Proof.
  destruct st as [h p l]; simpl. intros -> ->. reflexivity.
Qed.

Lemma step_blank (st : seg) (line : str) :
  classify line = Blank -> step_line st line = flush st.
Proof.
  unfold classify, step_line.
  destruct (strip line); [reflexivity|].
  destruct (header_match _) as [[n g]|]; [discriminate|].
  destruct (is_list_item _); discriminate.
Qed.

Lemma step_heading (st : seg) (line : str) (n : nat) (g : str) :
  header_match (strip line) = Some (n, g) ->
  step_line st line
  = Seg (html_parts (flush st) ++ [h_block n (strip g)]) [] [].
Proof.
  unfold step_line. intros H.
  destruct (strip line) eqn:E; [discriminate|].
  rewrite H.
  destruct (flush_clears st) as [-> ->]. reflexivity.
Qed.

Lemma step_list_item (st : seg) (line : str) :
  classify line = ListItem ->
  step_line st line
  = let st' := match current_paragraph st with
               | [] => st
               | _ :: _ => flush st
               end in
    Seg (html_parts st') []
        (current_list st' ++ [li_item (strip (skipn 2 (strip line)))]).
Proof.
  unfold classify, step_line.
  destruct (strip line) eqn:E; [discriminate|].
  destruct (header_match _) as [[n g]|]; [discriminate|].
  destruct (is_list_item _); [|discriminate].
  intros _. destruct (current_paragraph st) eqn:P; cbn zeta.
  - now rewrite P.
  - destruct (flush_clears st) as [-> _]. reflexivity.
Qed.

Lemma step_plain (st : seg) (line : str) :
  classify line = Plain ->
  step_line st line
  = let st' := match current_list st with
               | [] => st
               | _ :: _ => flush st
               end in
    Seg (html_parts st') (current_paragraph st' ++ [strip line]) [].
Proof.
  unfold classify, step_line.
  destruct (strip line) eqn:E; [discriminate|].
  destruct (header_match _) as [[n g]|]; [discriminate|].
  destruct (is_list_item _); [discriminate|].
  intros _. destruct (current_list st) eqn:P; cbn zeta.
  - now rewrite P.
  - destruct (flush_clears st) as [_ ->]. reflexivity.
Qed.

Lemma step_exclusive (st : seg) (line : str) :
  exclusive (step_line st line).
Proof.
  destruct (classify line) eqn:K.
  - rewrite step_blank by exact K. left. apply flush_clears.
  - unfold classify in K.
    destruct (strip line) as [|c l] eqn:E; [discriminate|].
    destruct (header_match (c :: l)) as [[n g]|] eqn:H.
    + rewrite <- E in H. rewrite (step_heading st line n g H). now left.
    + destruct (is_list_item _); discriminate.
  - rewrite step_list_item by exact K. now left.
  - rewrite step_plain by exact K. now right.
Qed.

Lemma run_lines_snoc (ls : list str) (l : str) :
  run_lines (ls ++ [l]) = step_line (run_lines ls) l.
Proof. unfold run_lines. now rewrite fold_left_app. Qed.

Lemma run_exclusive (ls : list str) : exclusive (run_lines ls).
Proof.
  destruct ls as [|l ls] using rev_ind; [now left|].
  rewrite run_lines_snoc. apply step_exclusive.
Qed.

Lemma plain_lines_accumulate (ls : list str) (st : seg) :
  Forall (fun l => classify l = Plain) ls -> current_list st = [] ->
  fold_left step_line ls st
  = Seg (html_parts st) (current_paragraph st ++ map strip ls) [].
Proof.
  revert st; induction ls as [|l ls IH]; intros st Hall Hl; simpl.
  - rewrite app_nil_r. destruct st; simpl in *. now subst.
  - inversion Hall as [|? ? Hk Hrest]; subst.
    rewrite (step_plain st l Hk), Hl. cbn zeta.
    rewrite IH by (auto; reflexivity). simpl.
    now rewrite <- app_assoc.
Qed.

Lemma list_lines_accumulate (ls : list str) (st : seg) :
  Forall (fun l => classify l = ListItem) ls -> current_paragraph st = [] ->
  fold_left step_line ls st
  = Seg (html_parts st) []
        (current_list st
         ++ map (fun l => li_item (strip (skipn 2 (strip l)))) ls).
Proof.
  revert st; induction ls as [|l ls IH]; intros st Hall Hp; simpl.
  - rewrite app_nil_r. destruct st; simpl in *. now subst.
  - inversion Hall as [|? ? Hk Hrest]; subst.
    rewrite (step_list_item st l Hk), Hp. cbn zeta.
    rewrite IH by (auto; reflexivity). simpl.
    now rewrite <- app_assoc.
Qed.

Lemma split_nl_nonempty (s : str) : split_nl s <> [].
Proof.
  destruct s as [|c t]; simpl; [discriminate|].
  destruct (c =? NL); [discriminate|].
  destruct (split_nl t); discriminate.
Qed.

(** *** Trimmed text

    A text is trimmed when neither end is white space; [strip] returns
    such a text and leaves it as it is. *)

Lemma lstrip_keep (c : char) (t x : str) :
  lstrip (c :: t) = c :: t -> lstrip ((c :: t) ++ x) = (c :: t) ++ x.
Proof.
  simpl. destruct (isspace c) eqn:E; [|reflexivity].
  intros H. exfalso.
  assert (L : (length (lstrip t) <= length t)%nat).
  { clear. induction t as [|a t IH]; simpl; [lia|].
    destruct (isspace a); simpl; lia. }
  rewrite H in L. simpl in L. lia.
Qed.

Lemma lstrip_app_keep (a x : str) :
  a <> [] -> lstrip a = a -> lstrip (a ++ x) = a ++ x.
Proof.
  destruct a as [|c t]; [congruence|]. intros _. apply lstrip_keep.
Qed.

Lemma lstrip_snoc_keep (l : str) (c : char) :
  isspace c = false -> exists z, lstrip (l ++ [c]) = z ++ [c].
Proof.
  intros Hc. induction l as [|a l IH]; simpl.
  - rewrite Hc. now exists [].
  - destruct (isspace a); [exact IH|]. now exists (a :: l).
Qed.

Lemma strip_left (s : str) : lstrip (strip s) = strip s.
Proof.
  unfold strip, rstrip.
  pose proof (lstrip_idem s) as Hy.
  destruct (lstrip s) as [|c t]; [reflexivity|].
  assert (Hc : isspace c = false).
  { simpl in Hy. destruct (isspace c) eqn:E; [|reflexivity].
    exfalso.
    assert (L : (length (lstrip t) <= length t)%nat).
    { clear. induction t as [|a t IH]; simpl; [lia|].
      destruct (isspace a); simpl; lia. }
    rewrite Hy in L. simpl in L. lia. }
  change (rev (c :: t)) with (rev t ++ [c]).
  destruct (lstrip_snoc_keep (rev t) c Hc) as [z ->].
  rewrite rev_app_distr. simpl. now rewrite Hc.
Qed.

Lemma strip_right (s : str) : lstrip (rev (strip s)) = rev (strip s).
Proof.
  unfold strip, rstrip. now rewrite rev_involutive, lstrip_idem.
Qed.

Lemma strip_trimmed (x : str) :
  lstrip x = x -> lstrip (rev x) = rev x -> strip x = x.
Proof.
  intros Hl Hr. unfold strip, rstrip. rewrite Hl, Hr.
  apply rev_involutive.
Qed.

Lemma join_trimmed (sep : str) (ps : list str) :
  ps <> [] ->
  Forall (fun p => p <> [] /\ lstrip p = p /\ lstrip (rev p) = rev p) ps ->
  join sep ps <> []
  /\ lstrip (join sep ps) = join sep ps
  /\ lstrip (rev (join sep ps)) = rev (join sep ps).
Proof.
  induction ps as [|p ps IH]; [congruence|]. intros _ Hall.
  inversion Hall as [|? ? (Hp & Hl & Hr) Hrest]; subst.
  destruct ps as [|q ps]; [simpl; auto|].
  destruct (IH ltac:(discriminate) Hrest) as (Jn & _ & Jr).
  change (join sep (p :: q :: ps)) with (p ++ sep ++ join sep (q :: ps)).
  split; [|split].
  - destruct p; [congruence|discriminate].
  - now apply lstrip_app_keep.
  - rewrite !rev_app_distr, <- app_assoc.
    apply lstrip_app_keep; [|exact Jr].
    intros E. apply Jn. rewrite <- (rev_involutive (join _ _)), E.
    reflexivity.
Qed.

(** The lines of a paragraph, once joined, need no trimming. *)
Lemma paragraph_trimmed (ls : list str) :
  ls <> [] -> Forall (fun l => classify l = Plain) ls ->
  strip (join (py " ") (map strip ls)) = join (py " ") (map strip ls)
  /\ join (py " ") (map strip ls) <> [].
Proof.
  intros Hne Hall.
  destruct (join_trimmed (py " ") (map strip ls)) as (Jn & Jl & Jr).
  - destruct ls; [congruence|discriminate].
  - apply Forall_map. apply Forall_impl with (2 := Hall).
    intros l K. split; [|split].
    + unfold classify in K. now destruct (strip l).
    + apply strip_left.
    + apply strip_right.
  - split; [|exact Jn]. now apply strip_trimmed.
Qed.

(** *** Runs of lines of one kind *)

Lemma flush_appends (st : seg) :
  exists new, html_parts (flush st) = html_parts st ++ new.
Proof.
  unfold flush, flush_paragraph, flush_list.
  destruct st as [h p l]. cbn [current_list current_paragraph html_parts].
  destruct l as [|i il]; cbn [current_list current_paragraph html_parts].
  - destruct p as [|q qs]; [exists []; now rewrite app_nil_r|].
    destruct (strip _); cbn [html_parts];
      [exists []; now rewrite app_nil_r|]. eexists. reflexivity.
  - destruct p as [|q qs]; cbn [html_parts]; [eexists; reflexivity|].
    destruct (strip _); cbn [html_parts]; [eexists; reflexivity|].
    rewrite <- app_assoc. eexists. reflexivity.
Qed.

Lemma step_appends (st : seg) (line : str) :
  exists new, html_parts (step_line st line) = html_parts st ++ new.
Proof.
  destruct (flush_appends st) as [new Hf].
  unfold step_line.
  destruct (strip line) as [|c l]; [now exists new|].
  destruct (header_match (c :: l)) as [[n g]|].
  - cbn [html_parts]. rewrite Hf, <- app_assoc. eexists. reflexivity.
  - destruct (is_list_item (c :: l)); cbn [html_parts].
    + destruct (current_paragraph st); [|now exists new].
      exists []. now rewrite app_nil_r.
    + destruct (current_list st); [|now exists new].
      exists []. now rewrite app_nil_r.
Qed.

Lemma fold_flush_appends (ls : list str) (st : seg) :
  exists new,
    html_parts (flush (fold_left step_line ls st)) = html_parts st ++ new.
Proof.
  revert st; induction ls as [|l ls IH]; intros st; simpl.
  - apply flush_appends.
  - destruct (IH (step_line st l)) as [new ->].
    destruct (step_appends st l) as [new' ->].
    rewrite <- app_assoc. eexists. reflexivity.
Qed.

Lemma no_paragraph_after (st : seg) (l : str) :
  classify l <> Plain -> current_paragraph (step_line st l) = [].
Proof.
  intros K. destruct (classify l) eqn:E; [| | |congruence].
  - rewrite (step_blank st l E). apply flush_clears.
  - unfold classify in E.
    destruct (strip l) as [|c t] eqn:S; [discriminate|].
    destruct (header_match (c :: t)) as [[n g]|] eqn:H;
      [|destruct (is_list_item _); discriminate].
    rewrite <- S in H. now rewrite (step_heading st l n g H).
  - now rewrite (step_list_item st l E).
Qed.

Lemma no_list_after (st : seg) (l : str) :
  classify l <> ListItem -> current_list (step_line st l) = [].
Proof.
  intros K. destruct (classify l) eqn:E; [| |congruence|].
  - rewrite (step_blank st l E). apply flush_clears.
  - unfold classify in E.
    destruct (strip l) as [|c t] eqn:S; [discriminate|].
    destruct (header_match (c :: t)) as [[n g]|] eqn:H;
      [|destruct (is_list_item _); discriminate].
    rewrite <- S in H. now rewrite (step_heading st l n g H).
  - now rewrite (step_plain st l E).
Qed.

Lemma run_ends_without_paragraph (pre : list str) :
  (forall pre' l, pre = pre' ++ [l] -> classify l <> Plain) ->
  current_paragraph (run_lines pre) = [].
Proof.
  destruct pre as [|l pre] using rev_ind; [reflexivity|]. intros H.
  rewrite run_lines_snoc. apply no_paragraph_after, (H pre l eq_refl).
Qed.

Lemma run_ends_without_list (pre : list str) :
  (forall pre' l, pre = pre' ++ [l] -> classify l <> ListItem) ->
  current_list (run_lines pre) = [].
Proof.
  destruct pre as [|l pre] using rev_ind; [reflexivity|]. intros H.
  rewrite run_lines_snoc. apply no_list_after, (H pre l eq_refl).
Qed.

(** A run of plain lines that starts a paragraph: whatever was pending
    is flushed, and the lines are buffered together. *)
Lemma plain_run (st : seg) (ls : list str) :
  ls <> [] -> Forall (fun l => classify l = Plain) ls ->
  current_paragraph st = [] ->
  fold_left step_line ls st
  = Seg (html_parts (flush st)) (map strip ls) [].
Proof.
  destruct ls as [|l ls]; [congruence|]. intros _ Hall Hp.
  inversion Hall as [|? ? Hl Hls]; subst. cbn [fold_left].
  rewrite (plain_lines_accumulate ls _ Hls);
    rewrite (step_plain st l Hl); [|now destruct (current_list st)].
  destruct (current_list st) eqn:L; cbn zeta.
  - rewrite (flush_idle st Hp L), Hp. reflexivity.
  - destruct (flush_clears st) as [-> _]. reflexivity.
Qed.

Lemma item_run (st : seg) (ls : list str) :
  ls <> [] -> Forall (fun l => classify l = ListItem) ls ->
  current_list st = [] ->
  fold_left step_line ls st
  = Seg (html_parts (flush st)) []
        (map (fun l => li_item (strip (skipn 2 (strip l)))) ls).
Proof.
  destruct ls as [|l ls]; [congruence|]. intros _ Hall Hl'.
  inversion Hall as [|? ? Hl Hls]; subst. cbn [fold_left].
  rewrite (list_lines_accumulate ls _ Hls);
    rewrite (step_list_item st l Hl); [|now destruct (current_paragraph st)].
  destruct (current_paragraph st) eqn:P; cbn zeta.
  - rewrite (flush_idle st P Hl'), Hl'. reflexivity.
  - destruct (flush_clears st) as [_ ->]. reflexivity.
Qed.

Lemma flush_plain_run (h : list str) (ls : list str) :
  ls <> [] -> Forall (fun l => classify l = Plain) ls ->
  flush (Seg h (map strip ls) [])
  = Seg (h ++ [p_block (join (py " ") (map strip ls))]) [] [].
Proof.
  intros Hne Hall. destruct (paragraph_trimmed ls Hne Hall) as [Hs Hj].
  unfold flush, flush_list, flush_paragraph.
  cbn [current_list current_paragraph html_parts].
  destruct (map strip ls) as [|x xs] eqn:M;
    [destruct ls; [congruence|discriminate]|].
  rewrite Hs. destruct (join (py " ") (x :: xs)); [congruence|reflexivity].
Qed.

Lemma flush_item_run (h items : list str) :
  items <> [] ->
  flush (Seg h [] items) = Seg (h ++ [ul_block items]) [] [].
Proof. destruct items; [congruence|reflexivity]. Qed.

(** A line of another kind makes the loop flush what is pending before
    anything else is emitted; so does the end of the input. *)
Lemma step_flushes_first (st : seg) (l : str) :
  (current_paragraph st <> [] /\ classify l <> Plain)
  \/ (current_list st <> [] /\ classify l <> ListItem) ->
  exists new, html_parts (step_line st l) = html_parts (flush st) ++ new.
Proof.
  intros H. destruct (classify l) eqn:K.
  - rewrite (step_blank st l K). exists []. now rewrite app_nil_r.
  - unfold classify in K.
    destruct (strip l) as [|c t] eqn:S; [discriminate|].
    destruct (header_match (c :: t)) as [[n g]|] eqn:Hm;
      [|destruct (is_list_item _); discriminate].
    rewrite <- S in Hm. rewrite (step_heading st l n g Hm).
    eexists. reflexivity.
  - rewrite (step_list_item st l K).
    destruct H as [[Hp _]|[_ Hk]]; [|congruence].
    destruct (current_paragraph st); [congruence|].
    exists []. now rewrite app_nil_r.
  - rewrite (step_plain st l K).
    destruct H as [[_ Hk]|[Hl _]]; [congruence|].
    destruct (current_list st); [congruence|].
    exists []. now rewrite app_nil_r.
Qed.

Lemma closed_run (st : seg) (post : list str) :
  (forall l post', post = l :: post' ->
     (current_paragraph st <> [] /\ classify l <> Plain)
     \/ (current_list st <> [] /\ classify l <> ListItem)) ->
  exists rest,
    html_parts (flush (fold_left step_line post st))
    = html_parts (flush st) ++ rest
    /\ (post = [] -> rest = []).
Proof.
  destruct post as [|l post]; intros H.
  - exists []. now rewrite app_nil_r.
  - destruct (step_flushes_first st l (H l post eq_refl)) as [new E].
    destruct (fold_flush_appends post (step_line st l)) as [new' E'].
    exists (new ++ new'). cbn [fold_left].
    rewrite E', E, <- app_assoc. split; [reflexivity|discriminate].
Qed.

(** ** The block segmenter: claims *)

(** C3: a line is a heading exactly when its stripped form is one to six
    ['#'] followed by a white-space character; the loop body then flushes
    and emits [<h{level}>{text}</h{level}>], [level] being the number of
    hashes and [text] what follows the white space, trimmed and
    formatted.  ["# Title"] gives [<h1>Title</h1>], ["###### Deep"] gives
    [<h6>Deep</h6>], and seven hashes make a plain paragraph line. *)
Theorem heading_rule :
  (forall line,
      classify line = Heading <->
      exists n w r, (1 <= n <= 6)%nat
                    /\ strip line = repeat HASH n ++ w :: r
                    /\ isspace w = true)
  /\ (forall st line n w r,
        (1 <= n <= 6)%nat -> strip line = repeat HASH n ++ w :: r ->
        isspace w = true ->
        step_line st line
        = Seg (html_parts (flush st)
               ++ [py "<h" ++ str_of_nat n ++ py ">"
                   ++ process_inline (strip (dot_star (lstrip r)))
                   ++ py "</h" ++ str_of_nat n ++ py ">"]) [] [])
  /\ (forall r, ~ In NL r -> strip (dot_star (lstrip r)) = strip r)
  /\ (forall n, (1 <= n <= 6)%nat -> str_of_nat n = [48 + N.of_nat n])
  /\ md_to_html (py "# Title") = py "<h1>Title</h1>"
  /\ md_to_html (py "###### Deep") = py "<h6>Deep</h6>"
  /\ header_match (py "####### TooDeep") = None
  /\ classify (py "####### TooDeep") = Plain
  /\ md_to_html (py "####### TooDeep") = py "<p>####### TooDeep</p>".
Proof.
  split; [|split; [|split; [|split]]].
  - intros line. unfold classify. split.
    + destruct (strip line) as [|c l] eqn:E; [discriminate|].
      destruct (header_match (c :: l)) as [[n g]|] eqn:H.
      * intros _. apply header_match_spec in H as (Hn & w & r & Hs & Hw & _).
        now exists n, w, r.
      * destruct (is_list_item _); discriminate.
    + intros (n & w & r & Hn & Hs & Hw).
      assert (H : header_match (strip line)
                  = Some (n, dot_star (lstrip r))).
      { apply header_match_spec. split; [exact Hn|]. now exists w, r. }
      rewrite H. rewrite Hs.
      destruct n; [lia|]. reflexivity.
  - intros st line n w r Hn Hs Hw.
    apply step_heading, header_match_spec.
    split; [exact Hn|]. now exists w, r.
  - exact header_text_line.
  - intros n Hn.
    destruct n as [|[|[|[|[|[|[|n]]]]]]]; try lia; reflexivity.
  - repeat split; vm_compute; reflexivity.
Qed.

Lemma heading_rule_witness :
  step_line seg_init (py "  ## Two  ")
  = Seg [py "<h2>Two</h2>"] [] [].
Proof.
  destruct heading_rule as (_ & H & _).
  rewrite (H seg_init (py "  ## Two  ") 2%nat 32 (py "Two"));
    [reflexivity | lia | reflexivity | reflexivity].
Defined.

(** C4: after every line the loop has processed, at most one of the two
    pending buffers is non-empty, and the other buffer is flushed before
    a line of the other kind is buffered. *)
Theorem buffers_exclusive :
  (forall st line, exclusive (step_line st line))
  /\ (forall md_text n,
        exclusive (run_lines (firstn n (split_nl md_text))))
  /\ (forall st line,
        classify line = ListItem -> current_paragraph st <> [] ->
        step_line st line
        = Seg (html_parts (flush st)) []
              [li_item (strip (skipn 2 (strip line)))])
  /\ (forall st line,
        classify line = Plain -> current_list st <> [] ->
        step_line st line = Seg (html_parts (flush st)) [strip line] []).
Proof.
  split; [exact step_exclusive|].
  split; [intros; apply run_exclusive|].
  split.
  - intros st line K Hp. rewrite (step_list_item st line K).
    destruct (current_paragraph st); [congruence|]. cbn zeta.
    now destruct (flush_clears st) as [_ ->].
  - intros st line K Hl. rewrite (step_plain st line K).
    destruct (current_list st); [congruence|]. cbn zeta.
    now destruct (flush_clears st) as [-> _].
Qed.

Lemma buffers_exclusive_witness :
  step_line (Seg [] [py "text"] []) (py "- item")
  = Seg [py "<p>text</p>"] [] [py "<li>item</li>"]
  /\ step_line (Seg [] [] [py "<li>item</li>"]) (py "text")
     = Seg [py "<ul><li>item</li></ul>"] [py "text"] [].
Proof.
  destruct buffers_exclusive as (_ & _ & Hl & Hp). split.
  - rewrite (Hl (Seg [] [py "text"] []) (py "- item"));
      [reflexivity | reflexivity | discriminate].
  - rewrite (Hp (Seg [] [] [py "<li>item</li>"]) (py "text"));
      [reflexivity | reflexivity | discriminate].
Defined.

(** C6: a plain line that follows list items, with no blank line in
    between, makes the loop flush the list before the paragraph starts.
    ["- a"] then ["plain"] gives [<ul><li>a</li></ul>] followed by
    [<p>plain</p>]. *)
Theorem list_flushed_before_paragraph :
  (forall st line,
      classify line = Plain -> current_list st <> [] ->
      current_paragraph st = [] ->
      step_line st line
      = Seg (html_parts st ++ [ul_block (current_list st)])
            [strip line] [])
  /\ split_nl (py "- a" ++ [NL] ++ py "plain") = [py "- a"; py "plain"]
  /\ run_lines [py "- a"] = Seg [] [] [py "<li>a</li>"]
  /\ run_lines [py "- a"; py "plain"]
     = Seg [py "<ul><li>a</li></ul>"] [py "plain"] []
  /\ html_parts (flush (run_lines [py "- a"; py "plain"]))
     = [py "<ul><li>a</li></ul>"; py "<p>plain</p>"]
  /\ md_to_html (py "- a" ++ [NL] ++ py "plain")
     = py "<ul><li>a</li></ul>" ++ [NL] ++ py "<p>plain</p>".
Proof.
  split.
  - intros st line K Hl Hp. rewrite (step_plain st line K).
    destruct st as [h p [|i il]]; simpl in *; [congruence|].
    subst p. reflexivity.
  - repeat split; vm_compute; reflexivity.
Qed.

Lemma list_flushed_before_paragraph_witness :
  step_line (Seg [py "<h1>T</h1>"] [] [py "<li>a</li>"; py "<li>b</li>"])
            (py "plain")
  = Seg [py "<h1>T</h1>"; py "<ul><li>a</li><li>b</li></ul>"]
        [py "plain"] [].
Proof.
  destruct list_flushed_before_paragraph as (H & _).
  rewrite H; [reflexivity | reflexivity | discriminate | reflexivity].
Defined.

(** C7: consecutive plain lines are reflowed into one paragraph.  The
    flush joins the buffered lines with one space, trims the result and
    emits [<p>...</p>] only when something is left, clearing the buffer
    in both cases.  Wherever a run of consecutive plain lines stands in
    a document (after the start, a blank line, a heading or a list item,
    and up to the next such line or the end), the blocks of the lines
    before it are followed by exactly one [<p>] block that holds the
    stripped lines of the run joined by single spaces.  ["Hello"] then
    ["world"] gives [<p>Hello world</p>]. *)
Theorem paragraph_reflow :
  (forall st,
      current_paragraph st <> [] ->
      html_parts (flush st)
      = html_parts (flush_list st)
        ++ match strip (join (py " ") (current_paragraph st)) with
           | [] => []
           | (_ :: _) as p_content =>
               [py "<p>" ++ process_inline p_content ++ py "</p>"]
           end
      /\ current_paragraph (flush st) = []
      /\ current_list (flush st) = [])
  /\ (forall md_text pre ls post,
        split_nl md_text = pre ++ ls ++ post ->
        (forall pre' l, pre = pre' ++ [l] -> classify l <> Plain) ->
        ls <> [] -> Forall (fun l => classify l = Plain) ls ->
        (forall l post', post = l :: post' -> classify l <> Plain) ->
        run_lines (pre ++ ls)
        = Seg (html_parts (flush (run_lines pre))) (map strip ls) []
        /\ exists rest,
            md_to_html md_text
            = join [NL]
                (html_parts (flush (run_lines pre))
                 ++ [py "<p>"
                     ++ process_inline (join (py " ") (map strip ls))
                     ++ py "</p>"]
                 ++ rest)
            /\ (post = [] -> rest = []))
  /\ (forall md_text,
        Forall (fun l => classify l = Plain) (split_nl md_text) ->
        run_lines (split_nl md_text)
        = Seg [] (map strip (split_nl md_text)) []
        /\ md_to_html md_text
           = py "<p>"
             ++ process_inline
                  (join (py " ") (map strip (split_nl md_text)))
             ++ py "</p>")
  /\ split_nl (py "Hello" ++ [NL] ++ py "world") = [py "Hello"; py "world"]
  /\ run_lines [py "Hello"; py "world"]
     = Seg [] [py "Hello"; py "world"] []
  /\ md_to_html (py "Hello" ++ [NL] ++ py "world") = py "<p>Hello world</p>".
Proof.
  split; [|split; [|split]].
  - intros st Hp.
    destruct (flush_clears st) as [E1 E2].
    split; [|now split].
    unfold flush, flush_paragraph.
    assert (P : current_paragraph (flush_list st) = current_paragraph st).
    { unfold flush_list. now destruct (current_list st). }
    rewrite P.
    destruct (current_paragraph st); [congruence|].
    destruct (strip _); simpl; [now rewrite app_nil_r | reflexivity].
  - intros md_text pre ls post Hsplit Hpre Hne Hall Hpost.
    assert (R : run_lines (pre ++ ls)
                = Seg (html_parts (flush (run_lines pre)))
                      (map strip ls) []).
    { unfold run_lines. rewrite fold_left_app. fold (run_lines pre).
      apply plain_run; [exact Hne|exact Hall|].
      now apply run_ends_without_paragraph. }
    split; [exact R|].
    destruct (closed_run (run_lines (pre ++ ls)) post) as (rest & E & N).
    { intros l post' Ep. left. split; [|exact (Hpost l post' Ep)].
      rewrite R. cbn [current_paragraph].
      destruct ls; [congruence|discriminate]. }
    exists rest. split; [|exact N].
    unfold md_to_html. rewrite Hsplit, app_assoc.
    unfold run_lines at 1. rewrite fold_left_app.
    fold (run_lines (pre ++ ls)). rewrite E, R.
    rewrite (flush_plain_run _ ls Hne Hall). cbn [html_parts].
    now rewrite <- app_assoc.
  - intros md_text Hall.
    assert (R : run_lines (split_nl md_text)
                = Seg [] (map strip (split_nl md_text)) []).
    { unfold run_lines.
      now rewrite (plain_lines_accumulate _ seg_init Hall eq_refl). }
    split; [exact R|].
    unfold md_to_html. rewrite R.
    pose proof (split_nl_nonempty md_text) as Hne.
    destruct (paragraph_trimmed _ Hne Hall) as [Hs Hj].
    unfold flush, flush_list, flush_paragraph. cbn [current_list
      current_paragraph html_parts].
    destruct (map strip (split_nl md_text)) as [|x xs] eqn:M.
    { destruct (split_nl md_text); [congruence|discriminate]. }
    rewrite Hs.
    destruct (join (py " ") (x :: xs)); [congruence|reflexivity].
  - repeat split; vm_compute; reflexivity.
Qed.

Lemma paragraph_reflow_witness :
  html_parts (flush (Seg [] [py "soft"; py "wrap"] []))
  = [py "<p>soft wrap</p>"]
  /\ (exists rest,
        md_to_html (py "# T" ++ NL :: py "Hello" ++ NL :: py " world "
                    ++ NL :: NL :: py "- x")
        = join [NL] ([py "<h1>T</h1>"] ++ [py "<p>Hello world</p>"] ++ rest))
  /\ md_to_html (py "one" ++ [NL] ++ py " two " ++ [NL] ++ py "three")
     = py "<p>one two three</p>".
Proof.
  destruct paragraph_reflow as (Hf & Hrun & Hr & _). split; [|split].
  - destruct (Hf (Seg [] [py "soft"; py "wrap"] [])) as (-> & _);
      [discriminate | reflexivity].
  - destruct (Hrun (py "# T" ++ NL :: py "Hello" ++ NL :: py " world "
                    ++ NL :: NL :: py "- x")
                [py "# T"] [py "Hello"; py " world "] [[]; py "- x"])
      as (_ & rest & E & _).
    + reflexivity.
    + intros pre' l E. symmetry in E.
      apply (app_inj_tail pre' [] l (py "# T")) in E.
      destruct E as [_ ->]. discriminate.
    + discriminate.
    + repeat constructor.
    + intros l post' [= <- _]. discriminate.
    + exists rest. exact E.
  - destruct (Hr (py "one" ++ [NL] ++ py " two " ++ [NL] ++ py "three"))
      as (_ & ->); [|reflexivity].
    repeat constructor.
Defined.

(** C8: consecutive list-item lines are grouped into one [<ul>] block.
    Wherever a run of consecutive list-item lines stands in a document
    (after the start or a line of another kind, and up to the next such
    line or the end), the blocks of the lines before it are followed by
    exactly one [<ul>] block that holds the [<li>] items of the run in
    order; when the run ends the document, the flush after the loop
    emits it and nothing follows.  ["- one\n- two"] gives
    [<ul><li>one</li><li>two</li></ul>]. *)
Theorem list_grouped_and_flushed :
  (forall md_text pre ls post,
      split_nl md_text = pre ++ ls ++ post ->
      (forall pre' l, pre = pre' ++ [l] -> classify l <> ListItem) ->
      ls <> [] -> Forall (fun l => classify l = ListItem) ls ->
      (forall l post', post = l :: post' -> classify l <> ListItem) ->
      run_lines (pre ++ ls)
      = Seg (html_parts (flush (run_lines pre))) []
            (map (fun l => py "<li>"
                           ++ process_inline (strip (skipn 2 (strip l)))
                           ++ py "</li>") ls)
      /\ exists rest,
          md_to_html md_text
          = join [NL]
              (html_parts (flush (run_lines pre))
               ++ [py "<ul>"
                   ++ concat
                        (map (fun l => py "<li>"
                                       ++ process_inline
                                            (strip (skipn 2 (strip l)))
                                       ++ py "</li>") ls)
                   ++ py "</ul>"]
               ++ rest)
          /\ (post = [] -> rest = []))
  /\ (forall md_text,
        Forall (fun l => classify l = ListItem) (split_nl md_text) ->
        md_to_html md_text
        = py "<ul>"
          ++ concat (map (fun l => py "<li>"
                                   ++ process_inline
                                        (strip (skipn 2 (strip l)))
                                   ++ py "</li>") (split_nl md_text))
          ++ py "</ul>")
  /\ (forall md_text,
        current_list (run_lines (split_nl md_text)) <> [] ->
        md_to_html md_text
        = join [NL]
            (html_parts (run_lines (split_nl md_text))
             ++ [ul_block (current_list (run_lines (split_nl md_text)))]))
  /\ run_lines (split_nl (py "- one" ++ [NL] ++ py "- two"))
     = Seg [] [] [py "<li>one</li>"; py "<li>two</li>"]
  /\ md_to_html (py "- one" ++ [NL] ++ py "- two")
     = py "<ul><li>one</li><li>two</li></ul>".
Proof.
  split; [|split; [|split]].
  - intros md_text pre ls post Hsplit Hpre Hne Hall Hpost.
    assert (R : run_lines (pre ++ ls)
                = Seg (html_parts (flush (run_lines pre))) []
                      (map (fun l => li_item (strip (skipn 2 (strip l))))
                           ls)).
    { unfold run_lines. rewrite fold_left_app. fold (run_lines pre).
      apply item_run; [exact Hne|exact Hall|].
      now apply run_ends_without_list. }
    split; [exact R|].
    destruct (closed_run (run_lines (pre ++ ls)) post) as (rest & E & N).
    { intros l post' Ep. right. split; [|exact (Hpost l post' Ep)].
      rewrite R. cbn [current_list].
      destruct ls; [congruence|discriminate]. }
    exists rest. split; [|exact N].
    unfold md_to_html. rewrite Hsplit, app_assoc.
    unfold run_lines at 1. rewrite fold_left_app.
    fold (run_lines (pre ++ ls)). rewrite E, R.
    rewrite flush_item_run by (destruct ls; [congruence|discriminate]).
    cbn [html_parts]. now rewrite <- app_assoc.
  - intros md_text Hall. unfold md_to_html, run_lines.
    rewrite (list_lines_accumulate _ seg_init Hall eq_refl).
    pose proof (split_nl_nonempty md_text) as Hne.
    destruct (split_nl md_text) as [|l ls]; [congruence|].
    reflexivity.
  - intros md_text Hl. unfold md_to_html.
    destruct (run_exclusive (split_nl md_text)) as [Hp|Hp];
      [|congruence].
    destruct (run_lines (split_nl md_text)) as [h p [|i il]];
      simpl in *; [congruence|].
    subst p. reflexivity.
  - repeat split; vm_compute; reflexivity.
Qed.

Lemma list_grouped_and_flushed_witness :
  md_to_html (py "# T" ++ NL :: py "- a" ++ NL :: py "* b")
  = py "<h1>T</h1>" ++ NL :: py "<ul><li>a</li><li>b</li></ul>"
  /\ md_to_html (py "* x" ++ [NL] ++ py "- y" ++ [NL] ++ py "- z")
     = py "<ul><li>x</li><li>y</li><li>z</li></ul>"
  /\ md_to_html (py "p" ++ [NL] ++ py "- y")
     = py "<p>p</p>" ++ [NL] ++ py "<ul><li>y</li></ul>".
Proof.
  destruct list_grouped_and_flushed as (Hrun & Hg & Hf & _).
  split; [|split].
  - destruct (Hrun (py "# T" ++ NL :: py "- a" ++ NL :: py "* b")
                [py "# T"] [py "- a"; py "* b"] [])
      as (_ & rest & E & N).
    + reflexivity.
    + intros pre' l E. symmetry in E.
      apply (app_inj_tail pre' [] l (py "# T")) in E.
      destruct E as [_ ->]. discriminate.
    + discriminate.
    + repeat constructor.
    + intros l post' E. discriminate.
    + rewrite E, (N eq_refl). reflexivity.
  - rewrite Hg; [reflexivity|]. repeat constructor.
  - rewrite Hf; [reflexivity|]. discriminate.
Defined.

(** ** Line endings *)

Lemma lstrip_snoc (l : str) (w : char) :
  isspace w = true ->
  lstrip (l ++ [w]) = match lstrip l with
                      | [] => []
                      | _ :: _ => lstrip l ++ [w]
                      end.
Proof.
  intros Hw. induction l as [|c t IH]; simpl.
  - now rewrite Hw.
  - destruct (isspace c); [exact IH | reflexivity].
Qed.

(** White space at the end of a line does not survive [strip]. *)
Lemma strip_snoc (l : str) (w : char) :
  isspace w = true -> strip (l ++ [w]) = strip l.
Proof.
  intros Hw. unfold strip, rstrip. rewrite lstrip_snoc by exact Hw.
  destruct (lstrip l) as [|c t]; [reflexivity|].
  rewrite rev_app_distr. simpl rev at 2. simpl app at 1.
  cbn [lstrip]. now rewrite Hw.
Qed.

Lemma same_or_cr_strip (l' l : str) : same_or_cr l' l -> strip l' = strip l.
Proof.
  intros [->| ->]; [reflexivity|].
  symmetry. now apply strip_snoc.
Qed.

Lemma split_nl_cons (c : char) (t : str) :
  split_nl (c :: t)
  = if c =? NL then [] :: split_nl t
    else match split_nl t with
         | l :: ls => (c :: l) :: ls
         | [] => [[c]]
         end.
Proof. reflexivity. Qed.

Lemma replace_crlf_cons (c c' : char) (t : str) :
  replace_crlf (c :: c' :: t)
  = if (c =? CR) && (c' =? NL) then NL :: replace_crlf t
    else c :: replace_crlf (c' :: t).
Proof. reflexivity. Qed.

Lemma split_nl_cons_lines (c : char) (x' x : str) :
  Forall2 same_or_cr (split_nl x') (split_nl x) ->
  Forall2 same_or_cr (split_nl (c :: x')) (split_nl (c :: x)).
Proof.
  rewrite !split_nl_cons. intros H.
  destruct (c =? NL); [constructor; [now left | exact H]|].
  revert H. generalize (split_nl x') (split_nl x). intros ls' ls H.
  destruct H as [|l' l ls' ls Hl Hls].
  - constructor; [now left | constructor].
  - constructor; [|exact Hls].
    destruct Hl as [->| ->]; [now left | now right].
Qed.

Lemma replace_crlf_lines (n : nat) (s : str) :
  (length s <= n)%nat ->
  Forall2 same_or_cr (split_nl (replace_crlf s)) (split_nl s).
Proof.
  revert s; induction n as [|n IH]; intros [|c [|c' t]] Hn;
    simpl in Hn; try lia;
    try (repeat constructor; now left).
  - (* one character *)
    simpl. destruct (c =? NL); repeat constructor; now left.
  - rewrite replace_crlf_cons.
    destruct ((c =? CR) && (c' =? NL)) eqn:E.
    + (* the line loses its carriage return *)
      apply andb_true_iff in E as [Ec Ec'].
      apply N.eqb_eq in Ec, Ec'. subst c c'.
      change (split_nl (CR :: NL :: t)) with ([CR] :: split_nl t).
      change (split_nl (NL :: replace_crlf t))
        with ([] :: split_nl (replace_crlf t)).
      constructor; [now right|]. apply IH. lia.
    + apply split_nl_cons_lines, IH. simpl. lia.
Qed.

(** The loop body reads a line through [strip] only. *)
Lemma step_line_strip (st : seg) (l l' : str) :
  strip l' = strip l -> step_line st l' = step_line st l.
Proof. unfold step_line. now intros ->. Qed.

Lemma fold_step_strip (ls' ls : list str) :
  Forall2 same_or_cr ls' ls ->
  forall st, fold_left step_line ls' st = fold_left step_line ls st.
Proof.
  induction 1 as [|l' l ls' ls Hl _ IH]; intros st; simpl;
    [reflexivity|].
  rewrite (step_line_strip st l l' (same_or_cr_strip _ _ Hl)). apply IH.
Qed.

(** C9: [md_to_html] does not see CRLF line endings: replacing every
    ["\r\n"] of a document by ["\n"] leaves the result unchanged, the
    carriage return that is left at the end of a line being white space
    that [strip] removes. *)
Theorem md_to_html_crlf (s : str) :
  md_to_html (replace_crlf s) = md_to_html s.
Proof.
  unfold md_to_html, run_lines.
  now rewrite (fold_step_strip _ _ (replace_crlf_lines (length s) s
                                      (le_n _))).
Qed.


(** * The other scripts: properties *)

(** ** [chunk_text] *)

Import translate_pdf.

Lemma last_index_range (c : char) (l : str) :
  (last_index c l = -1
   \/ (0 <= last_index c l < Z.of_nat (length l)
       /\ nth_error l (Z.to_nat (last_index c l)) = Some c))%Z.
Proof.
  induction l as [|x t IH]; [now left|].
  cbn [last_index length].
  destruct (Z.eqb_spec (last_index c t) (-1)) as [E|E].
  - destruct (N.eqb_spec x c) as [->|_]; [|now left].
    right. split; [lia|reflexivity].
  - right. destruct IH as [IH|[IH N]]; [congruence|].
    split; [lia|].
    replace (Z.to_nat (last_index c t + 1))
      with (S (Z.to_nat (last_index c t))) by lia.
    exact N.
Qed.

Lemma firstn_snoc_nth (l : str) (k : nat) (x : char) :
  nth_error l k = Some x -> firstn (S k) l = firstn k l ++ [x].
Proof.
  revert l; induction k as [|k IH]; intros [|a l]; simpl;
    try discriminate.
  - now intros [= ->].
  - intros H. f_equal. apply IH, H.
Qed.

Lemma nth_error_firstn_some (l : str) (n k : nat) (x : char) :
  nth_error (firstn n l) k = Some x -> nth_error l k = Some x.
Proof.
  revert l k; induction n as [|n IH]; intros [|a l] [|k]; simpl;
    try discriminate; auto.
Qed.

Lemma next_end_spec (text : str) (chunk_size start : nat) :
  (1 <= chunk_size)%nat -> (start + chunk_size < length text)%nat ->
  let e := next_end text chunk_size start in
  (start < e <= start + chunk_size)%nat
  /\ (e = (start + chunk_size)%nat
      \/ ((start + chunk_size / 2 + 2 <= e)%nat
          /\ nth_error text (e - 1) = Some NL)).
Proof.
  intros Hc Hlen. unfold next_end, rfind, slice.
  replace (start + chunk_size - start)%nat with chunk_size by lia.
  set (w := firstn chunk_size (skipn start text)).
  assert (Hw : (length w <= chunk_size)%nat) by apply firstn_le_length.
  destruct (last_index_range NL w) as [E|[R N]].
  - rewrite E. cbn. split; [lia|now left].
  - destruct (Z.eqb_spec (last_index NL w) (-1)) as [E|_]; [lia|].
    rewrite (proj2 (Z.eqb_neq _ _)) by lia. cbn [negb andb].
    destruct (Z.ltb_spec (Z.of_nat (start + chunk_size / 2))
                (Z.of_nat start + last_index NL w)) as [L|L];
      [|split; [lia|now left]].
    cbv zeta.
    replace (Z.to_nat (Z.of_nat start + last_index NL w + 1))
      with (S (start + Z.to_nat (last_index NL w)))%nat by lia.
    split; [lia|]. right. split; [lia|].
    apply nth_error_firstn_some in N.
    rewrite nth_error_skipn in N.
    replace (S (start + Z.to_nat (last_index NL w)) - 1)%nat
      with (start + Z.to_nat (last_index NL w))%nat by lia.
    exact N.
Qed.

Lemma chunk_loop_spec (fuel : nat) (text : str) (chunk_size : nat)
  (chunks : list str) (start : nat) :
  (1 <= chunk_size)%nat -> (start <= length text)%nat ->
  (length text - start < fuel)%nat ->
  exists more,
    chunk_loop fuel text chunk_size chunks start = Some (chunks ++ more)
    /\ concat more = skipn start text
    /\ Forall (fun c => c <> [] /\ (length c <= chunk_size)%nat) more
    /\ Forall (fun c =>
                 length c = chunk_size
                 \/ ((chunk_size / 2 + 2 <= length c)%nat
                     /\ exists body, c = body ++ [NL]))
              (removelast more).
Proof.
  intros Hc. revert chunks start.
  induction fuel as [|fuel IH]; intros chunks start Hs Hf; [lia|].
  cbn [chunk_loop].
  destruct (Nat.ltb_spec start (length text)) as [Hlt|Hge].
  - destruct (Nat.leb_spec (length text) (start + chunk_size)) as [Hl|Hl].
    + (* the last chunk *)
      exists [skipn start text]. split; [reflexivity|].
      split; [simpl; now rewrite app_nil_r|].
      split; [|constructor].
      constructor; [|constructor]. split.
      * intros E. apply (f_equal (@length char)) in E.
        rewrite length_skipn in E. simpl in E. lia.
      * rewrite length_skipn. lia.
    + destruct (next_end_spec text chunk_size start Hc Hl) as [He Hb].
      set (e := next_end text chunk_size start) in *.
      destruct (IH (chunks ++ [slice text start e]) e) as
        (more & Hrun & Hcat & Hsz & Hbr); [lia|lia|].
      assert (Hlen : length (slice text start e) = (e - start)%nat).
      { unfold slice. rewrite length_firstn, length_skipn. lia. }
      exists (slice text start e :: more).
      split; [rewrite Hrun, <- app_assoc; reflexivity|].
      split.
      { simpl. rewrite Hcat. unfold slice.
        replace (skipn e text)
          with (skipn (e - start) (skipn start text)).
        - apply firstn_skipn.
        - rewrite skipn_skipn. f_equal. lia. }
      split.
      { constructor; [|exact Hsz]. split; [|lia].
        intros E. rewrite E in Hlen. simpl in Hlen. lia. }
      destruct more as [|c more].
      { exfalso. simpl in Hcat.
        apply (f_equal (@length char)) in Hcat.
        rewrite length_skipn in Hcat. simpl in Hcat. lia. }
      change (removelast (slice text start e :: c :: more))
        with (slice text start e :: removelast (c :: more)).
      constructor; [|exact Hbr].
      destruct Hb as [Hb|[Hb Hn]]; [left; lia|].
      right. split; [lia|].
      exists (firstn (e - start - 1) (skipn start text)).
      unfold slice.
      replace (e - start)%nat with (S (e - start - 1)) at 1 by lia.
      apply firstn_snoc_nth.
      rewrite nth_error_skipn.
      replace (start + (e - start - 1))%nat with (e - 1)%nat by lia.
      exact Hn.
  - exists []. rewrite app_nil_r. split; [reflexivity|].
    split; [|split; constructor].
    simpl. symmetry. apply skipn_all2. lia.
Qed.

(** X: with a positive chunk size [chunk_text] returns, and the chunks
    put end to end are the text: nothing is lost, repeated or
    reordered. *)
Theorem chunk_text_concat (text : str) (chunk_size : nat) :
  (1 <= chunk_size)%nat ->
  exists chunks,
    chunk_text text chunk_size = Some chunks /\ concat chunks = text.
Proof.
  intros Hc.
  destruct (chunk_loop_spec (S (length text)) text chunk_size [] 0 Hc)
    as (more & Hrun & Hcat & _); [lia|lia|].
  exists more. split; [exact Hrun|exact Hcat].
Qed.

Lemma chunk_text_concat_witness :
  exists chunks,
    chunk_text (py "one" ++ [NL] ++ py "two three") 4 = Some chunks
    /\ concat chunks = py "one" ++ [NL] ++ py "two three".
Proof.
  apply (chunk_text_concat (py "one" ++ [NL] ++ py "two three") 4). lia.
Defined.

(** X: no chunk is empty and none is longer than the chunk size. *)
Theorem chunk_text_sizes (text : str) (chunk_size : nat)
  (chunks : list str) :
  (1 <= chunk_size)%nat -> chunk_text text chunk_size = Some chunks ->
  Forall (fun c => c <> [] /\ (length c <= chunk_size)%nat) chunks.
Proof.
  intros Hc H.
  destruct (chunk_loop_spec (S (length text)) text chunk_size [] 0 Hc)
    as (more & Hrun & _ & Hsz & _); [lia|lia|].
  unfold chunk_text, chunk_text_fuel in H. rewrite Hrun in H.
  injection H as <-. exact Hsz.
Qed.

Lemma chunk_text_sizes_witness :
  Forall (fun c => c <> [] /\ (length c <= 4)%nat)
    [py "abcd"; py "efgh"; py "ij"].
Proof.
  apply (chunk_text_sizes (py "abcdefghij") 4
           [py "abcd"; py "efgh"; py "ij"]); [lia|reflexivity].
Defined.

(** X: every chunk but the last either fills the chunk size or ends
    with a newline that lies past the middle of the window (the chunk
    is then at least [chunk_size // 2 + 2] long). *)
Theorem chunk_text_breaks (text : str) (chunk_size : nat)
  (chunks : list str) :
  (1 <= chunk_size)%nat -> chunk_text text chunk_size = Some chunks ->
  Forall (fun c =>
            length c = chunk_size
            \/ ((chunk_size / 2 + 2 <= length c)%nat
                /\ exists body, c = body ++ [NL]))
         (removelast chunks).
Proof.
  intros Hc H.
  destruct (chunk_loop_spec (S (length text)) text chunk_size [] 0 Hc)
    as (more & Hrun & _ & _ & Hbr); [lia|lia|].
  unfold chunk_text, chunk_text_fuel in H. rewrite Hrun in H.
  injection H as <-. exact Hbr.
Qed.

Lemma chunk_text_breaks_witness :
  Forall (fun c =>
            length c = 4%nat
            \/ ((4 / 2 + 2 <= length c)%nat
                /\ exists body, c = body ++ [NL]))
         [py "a" ++ [NL] ++ py "cd"; py "efg" ++ [NL]].
Proof.
  apply (chunk_text_breaks
           (py "a" ++ [NL] ++ py "cdefg" ++ [NL] ++ py "hij") 4
           [py "a" ++ [NL] ++ py "cd"; py "efg" ++ [NL]; py "hij"]);
    [lia|reflexivity].
Defined.

(** X: [chunk_text] returns no chunk exactly for the empty text, and a
    non-empty text that fits the chunk size is its own single chunk. *)
Theorem chunk_text_small (text : str) (chunk_size : nat)
  (chunks : list str) :
  (1 <= chunk_size)%nat -> chunk_text text chunk_size = Some chunks ->
  (chunks = [] <-> text = [])
  /\ (text <> [] -> (length text <= chunk_size)%nat -> chunks = [text]).
Proof.
  intros Hc H.
  destruct (chunk_text_concat text chunk_size Hc) as (cs & H' & Hcat).
  rewrite H in H'. injection H' as <-.
  pose proof (chunk_text_sizes text chunk_size chunks Hc H) as Hsz.
  split; [split|].
  - intros ->. now rewrite <- Hcat.
  - intros ->. destruct chunks as [|c cs]; [reflexivity|].
    inversion Hsz as [|? ? [Hne _] _]; subst.
    simpl in Hcat. destruct c; [congruence|discriminate].
  - intros Hne Hlen. unfold chunk_text, chunk_text_fuel in H.
    cbn [chunk_loop] in H.
    destruct (Nat.ltb_spec 0 (length text)) as [_|L];
      [|destruct text; simpl in L; [congruence|lia]].
    destruct (Nat.leb_spec (length text) (0 + chunk_size)) as [_|L];
      [|lia].
    now injection H as <-.
Qed.

Lemma chunk_text_small_witness :
  ([py "short"] = [] <-> py "short" = [])
  /\ (py "short" <> [] -> (length (py "short") <= 3000)%nat ->
      [py "short"] = [py "short"]).
Proof.
  apply (chunk_text_small (py "short") 3000 [py "short"]);
    [lia|reflexivity].
Defined.

(** X: with [chunk_size = 0] the loop never ends on a non-empty text:
    each iteration appends an empty chunk and leaves [start] at 0. *)
Theorem chunk_text_zero_diverges (text : str) (fuel : nat) :
  text <> [] -> chunk_text_fuel fuel text 0 = None.
Proof.
  intros Hne. unfold chunk_text_fuel. generalize (@nil str).
  induction fuel as [|fuel IH]; intros chunks; [reflexivity|].
  cbn [chunk_loop].
  destruct (Nat.ltb_spec 0 (length text)) as [L0|L];
    [|destruct text; simpl in L; [congruence|lia]].
  destruct (Nat.leb_spec (length text) (0 + 0)) as [L|_]; [lia|].
  change (next_end text 0 0) with 0%nat.
  apply IH.
Qed.

Lemma chunk_text_zero_diverges_witness :
  chunk_text_fuel 1000 (py "text") 0 = None.
Proof.
  apply (chunk_text_zero_diverges (py "text") 1000). discriminate.
Defined.

(** ** [translate_chunk_with_retry] *)

Lemma backoff_sum (delay a k : nat) :
  (list_sum (map (fun j => delay * 2 ^ j) (seq a k)) + delay * 2 ^ a
   = delay * 2 ^ (a + k))%nat.
Proof.
  revert a; induction k as [|k IH]; intros a.
  - now rewrite Nat.add_0_r.
  - cbn [seq map list_sum fold_right]. specialize (IH (S a)).
    replace (a + S k)%nat with (S a + k)%nat by lia.
    rewrite <- IH, Nat.pow_succ_r'.
    replace (delay * (2 * 2 ^ a))%nat with (2 * (delay * 2 ^ a))%nat
      by ring.
    unfold list_sum. lia.
Qed.

Lemma retry_loop_sleeps (answers : nat -> outcome) (delay a n : nat) :
  exists k, (k <= n)%nat
            /\ (forall j, (j < k)%nat ->
                   rate_limited (answers (a + j)%nat) = true)
            /\ ((k < n)%nat -> rate_limited (answers (a + k)%nat) = false)
            /\ snd (retry_loop answers delay a n)
               = map (fun j => delay * 2 ^ j)%nat (seq a k).
Proof.
  revert a; induction n as [|n IH]; intros a; cbn [retry_loop].
  - exists 0%nat. split; [lia|]. split; [intros j Hj; lia|].
    split; [lia|reflexivity].
  - destruct (answers a) as [t|m] eqn:A.
    + exists 0%nat. split; [lia|]. split; [intros j Hj; lia|].
      rewrite Nat.add_0_r, A. split; reflexivity.
    + destruct (contains (py "429") m) eqn:C.
      * destruct (IH (S a)) as (k & Hk & Hq & Hs & E).
        destruct (retry_loop answers delay (S a) n) as [r sl].
        exists (S k). split; [lia|]. split; [|split].
        -- intros [|j] Hj.
           ++ rewrite Nat.add_0_r, A. exact C.
           ++ rewrite Nat.add_succ_r. apply Hq. lia.
        -- intros Hlt. rewrite Nat.add_succ_r. apply Hs. lia.
        -- simpl in *. now rewrite E.
      * exists 0%nat. split; [lia|]. split; [intros j Hj; lia|].
        rewrite Nat.add_0_r, A. split; [intros _; exact C|reflexivity].
Qed.

(** X: the function sleeps once after each rate-limited attempt, up to
    the first attempt that is not rate-limited or to the last of the
    [retries] attempts; the waits double from [delay] on and add up to
    [delay * (2^k - 1)] for [k] such attempts, at most
    [delay * (2^retries - 1)]. *)
Theorem retry_backoff (answers : nat -> outcome) (retries delay : nat) :
  exists k,
    (k <= retries)%nat
    /\ (forall j, (j < k)%nat -> rate_limited (answers j) = true)
    /\ ((k < retries)%nat -> rate_limited (answers k) = false)
    /\ snd (translate_chunk_with_retry answers retries delay)
       = map (fun j => delay * 2 ^ j)%nat (seq 0 k)
    /\ list_sum (snd (translate_chunk_with_retry answers retries delay))
       = (delay * (2 ^ k - 1))%nat
    /\ (list_sum (snd (translate_chunk_with_retry answers retries delay))
        <= delay * (2 ^ retries - 1))%nat.
Proof.
  unfold translate_chunk_with_retry.
  destruct (retry_loop_sleeps answers delay 0 retries)
    as (k & Hk & Hq & Hs & E).
  exists k. rewrite E. split; [exact Hk|].
  split; [exact Hq|]. split; [exact Hs|]. split; [reflexivity|].
  pose proof (backoff_sum delay 0 k) as S. simpl in S.
  assert (P : (2 ^ k <= 2 ^ retries)%nat)
    by (apply Nat.pow_le_mono_r; lia).
  assert (Q : (1 <= 2 ^ k)%nat)
    by (apply Nat.neq_0_lt_0, Nat.pow_nonzero; lia).
  split; nia.
Qed.

Lemma retry_backoff_witness :
  exists k,
    (k <= 5)%nat
    /\ snd (translate_chunk_with_retry
              (fun j => if (j <? 2)%nat then Raised (py "429 quota")
                        else Returned (py "ok")) 5 10)
       = map (fun j => 10 * 2 ^ j)%nat (seq 0 k)
    /\ rate_limited (Raised (py "429 quota")) = true
    /\ k = 2%nat.
Proof.
  destruct (retry_backoff
              (fun j => if (j <? 2)%nat then Raised (py "429 quota")
                        else Returned (py "ok")) 5 10)
    as (k & Hk & Hq & Hs & E & _).
  exists k. split; [exact Hk|]. split; [exact E|].
  split; [reflexivity|].
  destruct k as [|[|[|k]]]; [| |reflexivity|].
  - specialize (Hs ltac:(lia)). discriminate.
  - specialize (Hs ltac:(lia)). discriminate.
  - specialize (Hq 2%nat ltac:(lia)). discriminate.
Defined.

Lemma retry_loop_result (answers : nat -> outcome) (delay a n : nat)
  (t : str) :
  fst (retry_loop answers delay a n) = Some t <->
  exists k, (k < n)%nat
            /\ answers (a + k)%nat = Returned t
            /\ forall j, (j < k)%nat ->
                 exists m, answers (a + j)%nat = Raised m
                           /\ contains (py "429") m = true.
Proof.
  revert a; induction n as [|n IH]; intros a; cbn [retry_loop].
  - split; [discriminate|]. intros (k & Hk & _). lia.
  - destruct (answers a) as [t'|m] eqn:A.
    + split.
      * intros [= ->]. exists 0%nat. rewrite Nat.add_0_r.
        split; [lia|]. split; [exact A|]. intros j Hj. lia.
      * intros (k & Hk & R & Q). simpl. destruct k as [|k].
        -- rewrite Nat.add_0_r in R. congruence.
        -- destruct (Q 0%nat ltac:(lia)) as (m & Hm & _).
           rewrite Nat.add_0_r in Hm. congruence.
    + destruct (contains (py "429") m) eqn:C.
      * specialize (IH (S a)).
        destruct (retry_loop answers delay (S a) n) as [r sl].
        cbn [fst] in *. rewrite IH. split.
        -- intros (k & Hk & R & Q). exists (S k).
           split; [lia|]. rewrite Nat.add_succ_r. split; [exact R|].
           intros [|j] Hj.
           ++ exists m. now rewrite Nat.add_0_r.
           ++ rewrite Nat.add_succ_r. apply Q. lia.
        -- intros (k & Hk & R & Q). destruct k as [|k].
           ++ rewrite Nat.add_0_r in R. congruence.
           ++ exists k. split; [lia|].
              rewrite Nat.add_succ_r in R. split; [exact R|].
              intros j Hj. specialize (Q (S j) ltac:(lia)).
              now rewrite Nat.add_succ_r in Q.
      * split; [discriminate|].
        intros (k & Hk & R & Q). destruct k as [|k].
        -- rewrite Nat.add_0_r in R. congruence.
        -- destruct (Q 0%nat ltac:(lia)) as (m' & Hm & Hc).
           rewrite Nat.add_0_r in Hm. congruence.
Qed.

(** X: a translation is returned exactly when one of the first
    [retries] attempts returns and every attempt before it raised an
    exception whose message holds "429"; any other exception ends the
    retries at once. *)
Theorem retry_result (answers : nat -> outcome) (retries delay : nat)
  (t : str) :
  fst (translate_chunk_with_retry answers retries delay) = Some t <->
  exists k, (k < retries)%nat
            /\ answers k = Returned t
            /\ forall j, (j < k)%nat ->
                 exists m, answers j = Raised m
                           /\ contains (py "429") m = true.
Proof.
  unfold translate_chunk_with_retry.
  apply (retry_loop_result answers delay 0 retries t).
Qed.

Lemma retry_loop_exhausted (answers : nat -> outcome) (delay a n : nat) :
  (forall j, (j < n)%nat ->
             exists m, answers (a + j)%nat = Raised m
                       /\ contains (py "429") m = true) ->
  retry_loop answers delay a n
  = (None, map (fun j => delay * 2 ^ j)%nat (seq a n)).
Proof.
  revert a; induction n as [|n IH]; intros a H; cbn [retry_loop].
  - reflexivity.
  - destruct (H 0%nat ltac:(lia)) as (m & Hm & Hc).
    rewrite Nat.add_0_r in Hm. rewrite Hm, Hc, IH; [reflexivity|].
    intros j Hj. specialize (H (S j) ltac:(lia)).
    now rewrite Nat.add_succ_r in H.
Qed.

(** X: when every attempt is rate-limited the function gives up with
    [None] only after it has slept after each attempt, the last one
    included: [delay * (2^retries - 1)] in all, 310 seconds with the
    default 5 retries and delay 10. *)
Theorem retry_exhausted (answers : nat -> outcome) (retries delay : nat) :
  (forall j, (j < retries)%nat ->
             exists m, answers j = Raised m
                       /\ contains (py "429") m = true) ->
  translate_chunk_with_retry answers retries delay
  = (None, map (fun j => delay * 2 ^ j)%nat (seq 0 retries))
  /\ list_sum (snd (translate_chunk_with_retry answers retries delay))
     = (delay * (2 ^ retries - 1))%nat.
Proof.
  intros H. unfold translate_chunk_with_retry.
  rewrite (retry_loop_exhausted answers delay 0 retries H).
  split; [reflexivity|]. cbn [snd].
  pose proof (backoff_sum delay 0 retries) as S. simpl in S.
  assert (Q : (1 <= 2 ^ retries)%nat)
    by (apply Nat.neq_0_lt_0, Nat.pow_nonzero; lia).
  nia.
Qed.

Lemma retry_exhausted_witness :
  translate_chunk_with_retry
    (fun _ => Raised (py "429 Resource exhausted")) 5 10
  = (None, [10; 20; 40; 80; 160]%nat)
  /\ list_sum (snd (translate_chunk_with_retry
                      (fun _ => Raised (py "429 Resource exhausted"))
                      5 10)) = 310%nat.
Proof.
  apply (retry_exhausted
           (fun _ => Raised (py "429 Resource exhausted")) 5 10).
  intros j _. exists (py "429 Resource exhausted"). split; reflexivity.
Defined.

(** ** [translate_text] *)

Lemma translate_loop_spec (translate : nat -> str -> option str)
  (chunks : list str) (i : nat) (acc : str) :
  exists k,
    (k <= length chunks)%nat
    /\ translate_loop translate i chunks acc
       = (acc ++ concat
                   (map (fun jc => match translate (fst jc) (snd jc) with
                                   | Some t => t ++ [NL]
                                   | None => []
                                   end)
                        (combine (seq i k) chunks)),
          firstn (S k) chunks)
    /\ (forall j c, (j < k)%nat -> nth_error chunks j = Some c ->
          exists t, translate (i + j)%nat c = Some t /\ t <> [])
    /\ (forall c, nth_error chunks k = Some c ->
          translate (i + k)%nat c = None
          \/ translate (i + k)%nat c = Some []).
Proof.
  revert i acc; induction chunks as [|chunk chunks IH]; intros i acc.
  - exists 0%nat. simpl. rewrite app_nil_r.
    split; [lia|]. split; [reflexivity|].
    split; [intros j c Hj; lia | intros c H; discriminate].
  - cbn [translate_loop].
    destruct (translate i chunk) as [[|x t]|] eqn:T.
    + exists 0%nat. simpl. rewrite app_nil_r, Nat.add_0_r.
      split; [lia|]. split; [reflexivity|].
      split; [intros j c Hj; lia | intros c [= <-]; now right].
    + destruct (IH (S i) (acc ++ (x :: t) ++ [NL]))
        as (k & Hk & E & Hok & Hfail).
      exists (S k). rewrite E. split; [simpl; lia|]. split.
      * cbn [seq combine map concat fst snd]. rewrite T.
        now rewrite <- !app_assoc.
      * split.
        -- intros [|j] c Hj Hn; simpl in Hn.
           ++ injection Hn as <-. rewrite Nat.add_0_r.
              exists (x :: t). split; [exact T|discriminate].
           ++ rewrite Nat.add_succ_r. apply Hok; [lia|exact Hn].
        -- intros c Hn. simpl in Hn. rewrite Nat.add_succ_r.
           apply Hfail, Hn.
    + exists 0%nat. simpl. rewrite app_nil_r, Nat.add_0_r.
      split; [lia|]. split; [reflexivity|].
      split; [intros j c Hj; lia | intros c [= <-]; now left].
Qed.

(** X: [translate_text] returns; on a text that is only white space it
    sends nothing and returns the empty string; otherwise it sends the
    chunks of [chunk_text] in order and stops at the first one whose
    translation fails or is empty.  The chunks sent are a prefix of the
    chunks, all but the last sent were translated, and the result is
    their translations in order, each followed by a newline. *)
Theorem translate_text_stops_at_failure
  (translate : nat -> str -> option str) (text : str) :
  (strip text = [] -> translate_text translate text = Some ([], []))
  /\ (strip text <> [] ->
      exists chunks k,
        chunk_text text 3000 = Some chunks
        /\ (k <= length chunks)%nat
        /\ translate_text translate text
           = Some (concat
                     (map (fun jc =>
                             match translate (fst jc) (snd jc) with
                             | Some t => t ++ [NL]
                             | None => []
                             end)
                          (combine (seq 0 k) chunks)),
                   firstn (S k) chunks)
        /\ (forall j c, (j < k)%nat -> nth_error chunks j = Some c ->
              exists t, translate j c = Some t /\ t <> [])
        /\ (forall c, nth_error chunks k = Some c ->
              translate k c = None \/ translate k c = Some [])).
Proof.
  unfold translate_text. split.
  - now intros ->.
  - intros Hne. destruct (strip text) as [|x t]; [congruence|].
    destruct (chunk_text_concat text 3000 ltac:(lia)) as (chunks & -> & _).
    destruct (translate_loop_spec translate chunks 0 [])
      as (k & Hk & E & Hok & Hfail).
    exists chunks, k. rewrite E. now repeat split.
Qed.

Lemma translate_text_stops_at_failure_witness :
  translate_text (fun _ _ => None) (py "   ") = Some ([], [])
  /\ exists chunks k,
      chunk_text (py "Hello") 3000 = Some chunks
      /\ (k <= length chunks)%nat
      /\ translate_text (fun i c => if (i =? 0)%nat then Some c else None)
           (py "Hello")
         = Some (concat
                   (map (fun jc =>
                           match (if (fst jc =? 0)%nat
                                  then Some (snd jc) else None) with
                           | Some t => t ++ [NL]
                           | None => []
                           end)
                        (combine (seq 0 k) chunks)),
                 firstn (S k) chunks).
Proof.
  split.
  - apply (proj1 (translate_text_stops_at_failure
                    (fun _ _ => None) (py "   "))). reflexivity.
  - destruct (proj2 (translate_text_stops_at_failure
                       (fun i c => if (i =? 0)%nat then Some c else None)
                       (py "Hello")))
      as (chunks & k & H1 & H2 & H3 & _); [discriminate|].
    exists chunks, k. now repeat split.
Defined.

(** ** [extract_text] of [translate_pdf.py] *)

Lemma range_spec (a b n : Z) : In n (range a b) <-> (a <= n < b)%Z.
Proof.
  unfold range. rewrite in_map_iff. split.
  - intros (i & <- & Hi). apply in_seq in Hi. lia.
  - intros H. exists (Z.to_nat (n - a)). split; [lia|].
    apply in_seq. lia.
Qed.

(** X: whatever the page range asked for, every page [extract_text]
    loads is a page of the document: the numbers are clamped to
    [1 .. len(doc)] first, and the pages loaded are exactly those from
    [max(start_page, 1)] to [min(end_page, len(doc))]. *)
Theorem extract_text_pages_in_document (total_pages start_page end_page n : Z) :
  (In n (pages_loaded total_pages start_page end_page) <->
   (Z.max start_page 1 <= n + 1 <= Z.min end_page total_pages)%Z)
  /\ (In n (pages_loaded total_pages start_page end_page) ->
      (0 <= n < total_pages)%Z).
Proof.
  unfold pages_loaded.
  assert (H : In n (range
                      ((if (start_page <? 1)%Z then 1%Z else start_page) - 1)
                      (if (total_pages <? end_page)%Z
                       then total_pages else end_page)) <->
              (Z.max start_page 1 <= n + 1
               <= Z.min end_page total_pages)%Z).
  { rewrite range_spec.
    destruct (Z.ltb_spec start_page 1), (Z.ltb_spec total_pages end_page);
      lia. }
  split; [exact H|]. intros Hin. apply H in Hin. lia.
Qed.

Lemma range_nil (a b : Z) : range a b = [] <-> (b <= a)%Z.
Proof.
  unfold range. split.
  - intros H. apply map_eq_nil in H.
    destruct (Z.to_nat (b - a)) eqn:E; [lia|discriminate].
  - intros H. replace (Z.to_nat (b - a)) with 0%nat by lia. reflexivity.
Qed.

Lemma fold_left_grows {A : Type} (f : str -> A -> str) (l : list A) :
  (forall acc x, f acc x <> []) ->
  forall acc, fold_left f l acc = [] -> l = [] /\ acc = [].
Proof.
  intros Hf. induction l as [|x l IH]; intros acc; simpl; [auto|].
  intros H. destruct (IH _ H) as [_ E]. now apply Hf in E.
Qed.

(** X: [extract_text] returns the empty string, for which [main]
    translates and saves nothing, exactly when the clamped range is
    empty, that is when [max(start_page, 1) > min(end_page, len(doc))];
    so it does for a start page past the default end page 1. *)
Theorem extract_text_empty (total_pages : Z) (page_text : Z -> str)
  (start_page end_page : Z) :
  translate_pdf.extract_text total_pages page_text start_page end_page = []
  <-> (Z.min end_page total_pages < Z.max start_page 1)%Z.
Proof.
  unfold translate_pdf.extract_text.
  assert (R : pages_loaded total_pages start_page end_page = [] <->
              (Z.min end_page total_pages < Z.max start_page 1)%Z).
  { unfold pages_loaded. rewrite range_nil.
    destruct (Z.ltb_spec start_page 1), (Z.ltb_spec total_pages end_page);
      lia. }
  split.
  - intros H. apply R.
    apply fold_left_grows in H; [apply H|].
    intros acc x E. apply app_eq_nil in E as [E _].
    apply app_eq_nil in E as [_ E]. discriminate.
  - intros H. apply R in H. now rewrite H.
Qed.

(** ** [sanitize_filename] *)

Import web_to_md.

Lemma strip_incl (x : char) (s : str) : In x (strip s) -> In x s.
Proof.
  unfold strip, rstrip. intros H.
  apply in_rev, lstrip_incl, in_rev in H.
  apply lstrip_incl, H.
Qed.

Lemma strip_idem (s : str) : strip (strip s) = strip s.
Proof. apply strip_trimmed; [apply strip_left|apply strip_right]. Qed.

(** X: the name returned holds none of the nine characters of the
    pattern and no space, and neither end is white space. *)
Theorem sanitize_filename_clean (name : str) :
  (forall c, In c (sanitize_filename name) ->
             invalid_char c = false /\ c <> 32)
  /\ strip (sanitize_filename name) = sanitize_filename name.
Proof.
  unfold sanitize_filename. split; [|apply strip_idem].
  intros c H. apply strip_incl in H.
  apply in_map_iff in H as (y & <- & Hy).
  apply filter_In in Hy as [_ Hy]. apply negb_true_iff in Hy.
  destruct (N.eqb_spec y 32) as [->|Hn]; [split; [reflexivity|discriminate]|].
  now split.
Qed.

(** X: [sanitize_filename] is idempotent. *)
Theorem sanitize_filename_idempotent (name : str) :
  sanitize_filename (sanitize_filename name) = sanitize_filename name.
Proof.
  destruct (sanitize_filename_clean name) as [Hc Hs].
  set (r := sanitize_filename name) in *.
  unfold sanitize_filename at 1.
  assert (F : filter (fun c => negb (invalid_char c)) r = r).
  { clearbody r. clear Hs. induction r as [|a r IH]; [reflexivity|].
    simpl. destruct (Hc a (or_introl eq_refl)) as [-> _]. simpl.
    f_equal. apply IH. intros c Hin. apply Hc. now right. }
  assert (M : map (fun c => if c =? 32 then UNDER else c) r = r).
  { clearbody r. clear Hs F. induction r as [|a r IH]; [reflexivity|].
    simpl. destruct (Hc a (or_introl eq_refl)) as [_ Ha].
    destruct (N.eqb_spec a 32); [congruence|].
    f_equal. apply IH. intros c Hin. apply Hc. now right. }
  now rewrite F, M.
Qed.

Lemma count_rev (d : char) (s : str) : count d (rev s) = count d s.
Proof.
  induction s as [|a s IH]; [reflexivity|].
  simpl rev. rewrite count_app, IH. simpl. lia.
Qed.

Lemma count_lstrip (d : char) (s : str) :
  isspace d = false -> count d (lstrip s) = count d s.
Proof.
  intros Hd. induction s as [|a s IH]; [reflexivity|]. simpl.
  destruct (isspace a) eqn:E; [|reflexivity].
  destruct (N.eqb_spec a d) as [->|_]; [congruence|]. exact IH.
Qed.

Lemma count_strip (d : char) (s : str) :
  isspace d = false -> count d (strip s) = count d s.
Proof.
  intros Hd. unfold strip, rstrip.
  now rewrite count_rev, count_lstrip, count_rev, count_lstrip.
Qed.

(** X: no space is trimmed.  The spaces are replaced before [strip] is
    called, so every space of the name, leading and trailing ones
    included, comes out as an underscore. *)
Theorem sanitize_filename_keeps_spaces (name : str) :
  count UNDER (sanitize_filename name)
  = (count UNDER name + count 32%N name)%nat.
Proof.
  unfold sanitize_filename. rewrite count_strip by reflexivity.
  induction name as [|a name IH]; [reflexivity|].
  cbn [filter].
  destruct (invalid_char a) eqn:I; cbn [negb].
  - rewrite IH. simpl.
    destruct (N.eqb_spec a UNDER) as [->|_]; [discriminate|].
    destruct (N.eqb_spec a 32) as [->|_]; [discriminate|]. reflexivity.
  - cbn [map count]. rewrite IH.
    destruct (N.eqb_spec a 32) as [->|H32].
    + change (32 =? UNDER) with false.
      change (UNDER =? UNDER) with true. cbv iota. lia.
    + destruct (N.eqb_spec a UNDER); lia.
Qed.

(** ** [extract_text] of [run_gemini_translation.py] *)

Lemma lstrip_nil_iff (s : str) :
  lstrip s = [] <-> Forall (fun c => isspace c = true) s.
Proof.
  induction s as [|a s IH]; simpl; [split; auto|].
  destruct (isspace a) eqn:E.
  - rewrite IH. split; [now constructor|].
    intros H. now inversion H.
  - split; [discriminate|]. intros H. inversion H. congruence.
Qed.

Lemma strip_nil_iff (s : str) :
  strip s = [] <-> Forall (fun c => isspace c = true) s.
Proof.
  rewrite <- lstrip_nil_iff. unfold strip, rstrip. split.
  - intros H. apply (f_equal (@rev char)) in H.
    rewrite rev_involutive in H. simpl in H.
    apply lstrip_nil_iff in H.
    apply Forall_rev in H. rewrite rev_involutive in H.
    apply lstrip_nil_iff in H. now rewrite lstrip_idem in H.
  - now intros ->.
Qed.

(** X: [extract_text] returns the empty string, on which [main] aborts
    with "No text extracted", exactly when every page of the document
    holds white space only. *)
Theorem extract_text_empty_iff_blank (pages : list str) :
  run_gemini_translation.extract_text pages = []
  <-> Forall (Forall (fun c => isspace c = true)) pages.
Proof.
  unfold run_gemini_translation.extract_text. rewrite strip_nil_iff.
  assert (G : forall acc,
             fold_left (fun text page => text ++ page ++ [NL]) pages acc
             = acc ++ concat (map (fun p => p ++ [NL]) pages)).
  { induction pages as [|p ps IH]; intros acc; simpl.
    - now rewrite app_nil_r.
    - now rewrite IH, <- !app_assoc. }
  rewrite G. simpl. clear G.
  induction pages as [|p ps IH]; simpl; [split; constructor|].
  rewrite !Forall_app, IH. split.
  - intros [[Hp _] Hps]. now constructor.
  - intros H. inversion H; subst. repeat split; auto.
Qed.

(** * The converter: further properties *)

(** ** Inline formatting is local to a line *)

Lemma startswith_before_NL (d s b : str) :
  ~ In NL d -> startswith d (s ++ NL :: b) = startswith d s.
Proof.
  revert s; induction d as [|x d IH]; intros s Hd; [now destruct s|].
  assert (Hx : x <> NL) by (intros ->; apply Hd; now left).
  assert (Hd' : ~ In NL d) by (intros H; apply Hd; now right).
  destruct s as [|y s]; simpl.
  - apply N.eqb_neq in Hx. now rewrite Hx.
  - now rewrite IH.
Qed.

Lemma skipn_prefix (d r : str) : skipn (length d) (d ++ r) = r.
Proof. induction d as [|x d IH]; [reflexivity|exact IH]. Qed.

Lemma lazy_until_before_NL (d s b : str) :
  d <> [] -> ~ In NL d ->
  lazy_until d (s ++ NL :: b)
  = match lazy_until d s with
    | Some (inner, rest) => Some (inner, rest ++ NL :: b)
    | None => None
    end.
Proof.
  intros Hne Hd. induction s as [|c t IH].
  - rewrite (lazy_until_eq d []), (lazy_until_eq d ([] ++ NL :: b)).
    rewrite startswith_before_NL by exact Hd.
    destruct d as [|x d]; [congruence|]. reflexivity.
  - rewrite (lazy_until_eq d (c :: t)),
      (lazy_until_eq d ((c :: t) ++ NL :: b)).
    rewrite startswith_before_NL by exact Hd.
    destruct (startswith d (c :: t)) eqn:E.
    + apply startswith_split in E. rewrite E at 1.
      now rewrite <- app_assoc, skipn_prefix.
    + cbn [app]. destruct (c =? NL); [reflexivity|].
      rewrite IH. now destruct (lazy_until d t) as [[i r]|].
Qed.

Lemma match_here_before_NL (ds : list str) (s b : str) :
  (forall d, In d ds -> d <> []) -> (forall d, In d ds -> ~ In NL d) ->
  match_here ds (s ++ NL :: b)
  = match match_here ds s with
    | Some (inner, rest) => Some (inner, rest ++ NL :: b)
    | None => None
    end.
Proof.
  intros Hne Hnl. induction ds as [|d ds IH]; [reflexivity|].
  cbn [match_here].
  assert (Hd : ~ In NL d) by (apply Hnl; now left).
  assert (Hd' : d <> []) by (apply Hne; now left).
  rewrite startswith_before_NL by exact Hd.
  assert (IH' := IH (fun d H => Hne d (or_intror H))
                    (fun d H => Hnl d (or_intror H))).
  destruct (startswith d s) eqn:E; [|exact IH'].
  apply startswith_split in E.
  replace (skipn (length d) (s ++ NL :: b))
    with (skipn (length d) s ++ NL :: b)
    by (rewrite E at 2; now rewrite <- app_assoc, !skipn_prefix).
  rewrite lazy_until_before_NL by assumption.
  destruct (lazy_until d (skipn (length d) s)) as [[i r]|];
    [reflexivity|exact IH'].
Qed.

Lemma re_sub_before_NL (ds : list str) (opn cls : str) (b : str) :
  (forall d, In d ds -> d <> []) -> (forall d, In d ds -> ~ In NL d) ->
  forall n a, (length a <= n)%nat ->
    re_sub ds opn cls (a ++ NL :: b)
    = re_sub ds opn cls a ++ NL :: re_sub ds opn cls b.
Proof.
  intros Hne Hnl.
  assert (E : re_sub ds opn cls ([] ++ NL :: b)
              = re_sub ds opn cls [] ++ NL :: re_sub ds opn cls b).
  { pose proof (match_here_before_NL ds [] b Hne Hnl) as M.
    cbn [app] in *. rewrite re_sub_cons, M by exact Hne.
    replace (match_here ds []) with (@None (str * str)); [reflexivity|].
    clear -Hne. induction ds as [|d ds IH]; [reflexivity|]. simpl.
    destruct d; [exfalso; now apply (Hne []); [left|]|].
    apply IH. intros d' H. apply Hne. now right. }
  induction n as [|n IH]; intros [|x t] Ha; simpl in Ha; try lia;
    try exact E.
  change ((x :: t) ++ NL :: b) with (x :: (t ++ NL :: b)).
    rewrite !re_sub_cons by exact Hne.
    change (x :: (t ++ NL :: b)) with ((x :: t) ++ NL :: b).
    rewrite match_here_before_NL by assumption.
    destruct (match_here ds (x :: t)) as [[inner rest]|] eqn:M.
    + apply match_here_shorter in M; [|exact Hne]. simpl in M.
      rewrite IH by lia. now rewrite <- !app_assoc.
    + cbn [app]. rewrite IH by lia. reflexivity.
Qed.

(** X: a match never spans two lines, so the formatter works line by
    line: formatting two texts joined by a newline is formatting each
    and joining the results. *)
Theorem process_inline_line_by_line (a b : str) :
  process_inline (a ++ NL :: b)
  = process_inline a ++ NL :: process_inline b.
Proof.
  assert (S1 : forall x y, sub_strong (x ++ NL :: y)
                           = sub_strong x ++ NL :: sub_strong y).
  { intros x y. unfold sub_strong.
    apply re_sub_before_NL with (n := length x); [literal|literal|lia]. }
  assert (S2 : forall x y, sub_em (x ++ NL :: y)
                           = sub_em x ++ NL :: sub_em y).
  { intros x y. unfold sub_em.
    apply re_sub_before_NL with (n := length x); [literal|literal|lia]. }
  assert (S3 : forall x y, sub_code (x ++ NL :: y)
                           = sub_code x ++ NL :: sub_code y).
  { intros x y. unfold sub_code.
    apply re_sub_before_NL with (n := length x); [literal|literal|lia]. }
  unfold process_inline. now rewrite S1, S2, S3.
Qed.

(** ** The texts the formatter leaves unchanged *)

(** Every match adds the ['<'] of its two tags: a pass that does not add
    any has matched nowhere. *)
Lemma re_sub_no_match (ds : list str) (opn cls : str) :
  (forall d, In d ds -> d <> []) ->
  (forall d, In d ds -> ~ In 60 d) ->
  (0 < count 60%N opn)%nat ->
  forall s,
    (count 60%N s <= count 60%N (re_sub ds opn cls s))%nat
    /\ (count 60%N (re_sub ds opn cls s) = count 60%N s ->
        re_sub ds opn cls s = s
        /\ forall u v, s = u ++ v -> v <> [] -> match_here ds v = None).
Proof.
  intros Hne Hlt Ho.
  apply (re_sub_ind ds opn cls Hne
           (fun s out =>
              (count 60%N s <= count 60%N out)%nat
              /\ (count 60%N out = count 60%N s ->
                  out = s
                  /\ forall u v, s = u ++ v -> v <> [] ->
                                 match_here ds v = None))).
  - split; [lia|]. intros _. split; [reflexivity|].
    intros u v E Hv. symmetry in E. apply app_eq_nil in E as [_ ->].
    congruence.
  - intros d inner rest Hd _ _ [IH _].
    rewrite !count_app, (count_absent 60%N d) by (apply Hlt, Hd).
    split; [lia|]. intros E. lia.
  - intros x t M [IH1 IH2]. cbn [count]. split; [lia|].
    intros E. destruct IH2 as [-> IH2]; [lia|].
    split; [reflexivity|].
    intros [|y u] v Ev Hv; cbn [app] in Ev.
    + now subst v.
    + injection Ev as _ Ev. now apply (IH2 u v).
Qed.

Lemma no_match_lone (ds : list str) (d : char) (s : str) :
  In [d] ds ->
  (forall u v, s = u ++ v -> v <> [] -> match_here ds v = None) ->
  lone d s = true.
Proof.
  intros Hd. induction s as [|x t IH]; intros H; [reflexivity|].
  cbn [lone]. rewrite IH.
  - rewrite andb_true_r.
    destruct (N.eqb_spec x d) as [->|_]; [|reflexivity].
    apply negb_true_iff, lazy_until_none.
    apply (match_here_none ds (d :: t) [d]);
      [apply (H []); [reflexivity|discriminate] | exact Hd |].
    simpl. now rewrite N.eqb_refl.
  - intros u v E Hv. apply (H (x :: u)); [now rewrite E|exact Hv].
Qed.

(** X: the formatter returns a text unchanged exactly when no line of it
    holds the same delimiter character twice. *)
Theorem process_inline_fixed_points (t : str) :
  process_inline t = t
  <-> lone STAR t = true /\ lone UNDER t = true /\ lone TICK t = true.
Proof.
  split; [|intros (H1 & H2 & H3); now apply process_inline_fixed].
  unfold process_inline. intros E.
  destruct (re_sub_no_match [py "**"; py "__"] (py "<strong>")
              (py "</strong>") ltac:(literal) ltac:(literal)
              ltac:(cbv; lia) t) as [L1 F1].
  fold (sub_strong t) in L1, F1.
  destruct (re_sub_no_match [py "*"; py "_"] (py "<em>")
              (py "</em>") ltac:(literal) ltac:(literal)
              ltac:(cbv; lia) (sub_strong t)) as [L2 F2].
  fold (sub_em (sub_strong t)) in L2, F2.
  destruct (re_sub_no_match [py "`"] (py "<code>")
              (py "</code>") ltac:(literal) ltac:(literal)
              ltac:(cbv; lia) (sub_em (sub_strong t))) as [L3 F3].
  fold (sub_code (sub_em (sub_strong t))) in L3, F3.
  rewrite E in L3, F3.
  destruct F1 as [E1 _]; [lia|]. rewrite E1 in *.
  destruct F2 as [E2 N2]; [lia|]. rewrite E2 in *.
  destruct F3 as [_ N3]; [lia|].
  split; [|split].
  - apply (no_match_lone [py "*"; py "_"]); [now left|exact N2].
  - apply (no_match_lone [py "*"; py "_"]); [right; now left|exact N2].
  - apply (no_match_lone [py "`"]); [now left|exact N3].
Qed.

(** ** Blank lines and surrounding white space *)

Lemma split_nl_app (s t : str) :
  split_nl (s ++ NL :: t) = split_nl s ++ split_nl t.
Proof.
  induction s as [|c s IH]; [reflexivity|].
  cbn [app]. rewrite !split_nl_cons, IH.
  destruct (c =? NL); [reflexivity|].
  pose proof (split_nl_nonempty s) as H.
  now destruct (split_nl s).
Qed.

Lemma split_nl_chars (s l : str) (c : char) :
  In l (split_nl s) -> In c l -> In c s.
Proof.
  revert l; induction s as [|x s IH]; intros l; simpl.
  - intros [<-|[]] [].
  - destruct (x =? NL).
    + intros [<-|H] Hc; [destruct Hc|]. right. now apply (IH l).
    + pose proof (split_nl_nonempty s) as Hne.
      destruct (split_nl s) as [|l0 ls]; [congruence|].
      intros [<-|H] Hc.
      * destruct Hc as [->|Hc]; [now left|].
        right. apply (IH l0); [now left|exact Hc].
      * right. apply (IH l); [now right|exact Hc].
Qed.

Lemma blank_lines_of_space (w : str) :
  Forall (fun c => isspace c = true) w ->
  Forall (fun l => classify l = Blank) (split_nl w).
Proof.
  intros Hw. apply Forall_forall. intros l Hl.
  unfold classify.
  replace (strip l) with (@nil char); [reflexivity|].
  symmetry. apply strip_nil_iff, Forall_forall. intros c Hc.
  rewrite Forall_forall in Hw. apply Hw.
  now apply (split_nl_chars w l c).
Qed.

Lemma flush_flush (st : seg) : flush (flush st) = flush st.
Proof. apply flush_idle; apply flush_clears. Qed.

Lemma fold_blank (bl : list str) (st : seg) :
  Forall (fun l => classify l = Blank) bl -> bl <> [] ->
  fold_left step_line bl st = flush st.
Proof.
  revert st; induction bl as [|l bl IH]; intros st Hall Hne;
    [congruence|].
  inversion Hall as [|? ? Hl Hbl]; subst. simpl.
  rewrite (step_blank st l Hl).
  destruct bl as [|l' bl']; [reflexivity|].
  rewrite IH; [apply flush_flush|exact Hbl|discriminate].
Qed.

(** X: white space around the document does not show: lines of white
    space before the first line or after the last one change nothing. *)
Theorem md_to_html_surrounding_blank (w s : str) :
  Forall (fun c => isspace c = true) w ->
  md_to_html (w ++ NL :: s) = md_to_html s
  /\ md_to_html (s ++ NL :: w) = md_to_html s.
Proof.
  intros Hw. pose proof (blank_lines_of_space w Hw) as Hb.
  pose proof (split_nl_nonempty w) as Hne.
  unfold md_to_html, run_lines. rewrite !split_nl_app, !fold_left_app.
  rewrite !(fold_blank (split_nl w)) by assumption.
  now rewrite flush_flush.
Qed.

Lemma md_to_html_surrounding_blank_witness :
  md_to_html (py "  " ++ NL :: py "# T") = md_to_html (py "# T")
  /\ md_to_html (py "# T" ++ NL :: py "  ") = md_to_html (py "# T").
Proof.
  apply (md_to_html_surrounding_blank (py "  ") (py "# T")).
  repeat constructor.
Defined.

(** X: a run of blank lines counts as one: between two parts of a
    document, any lines of white space do what a single empty line
    does. *)
Theorem md_to_html_blank_run (w a b : str) :
  Forall (fun c => isspace c = true) w ->
  md_to_html (a ++ NL :: w ++ NL :: b) = md_to_html (a ++ NL :: NL :: b).
Proof.
  intros Hw. pose proof (blank_lines_of_space w Hw) as Hb.
  pose proof (split_nl_nonempty w) as Hne.
  unfold md_to_html, run_lines.
  rewrite (split_nl_app a (w ++ NL :: b)), (split_nl_app w b),
    (split_nl_app a (NL :: b)).
  change (split_nl (NL :: b)) with ([] :: split_nl b).
  rewrite !fold_left_app.
  rewrite (fold_blank (split_nl w)) by assumption.
  reflexivity.
Qed.

Lemma md_to_html_blank_run_witness :
  md_to_html (py "a" ++ NL :: ([NL] ++ py "  " ++ [NL; 9]) ++ NL :: py "b")
  = md_to_html (py "a" ++ NL :: NL :: py "b").
Proof.
  apply (md_to_html_blank_run ([NL] ++ py "  " ++ [NL; 9]) (py "a") (py "b")).
  repeat constructor.
Defined.

(** X: the converter reads a line through [strip] only: two documents
    whose lines agree once stripped (indentation, trailing blanks,
    carriage returns) give the same HTML. *)
Theorem md_to_html_indentation (a b : str) :
  Forall2 (fun x y => strip x = strip y) (split_nl a) (split_nl b) ->
  md_to_html a = md_to_html b.
Proof.
  intros H. unfold md_to_html, run_lines. f_equal. f_equal. f_equal.
  generalize seg_init.
  induction H as [|x y xs ys Hxy _ IH]; intros st; [reflexivity|].
  simpl. rewrite (step_line_strip st y x Hxy). apply IH.
Qed.

Lemma md_to_html_indentation_witness :
  md_to_html (py "- a" ++ NL :: py "    - b")
  = md_to_html (py "- a  " ++ NL :: py "- b").
Proof.
  apply (md_to_html_indentation (py "- a" ++ NL :: py "    - b")
           (py "- a  " ++ NL :: py "- b")).
  repeat constructor.
Defined.

(** ** Emitted blocks *)

(** X: output is only ever appended: the blocks emitted for the first
    lines of a document stay, in the same order, at the head of the
    blocks of the whole document, whatever follows. *)
Theorem html_parts_append_only (ls ls' : list str) :
  exists new,
    html_parts (flush (run_lines (ls ++ ls')))
    = html_parts (run_lines ls) ++ new.
Proof.
  unfold run_lines. rewrite fold_left_app.
  generalize (fold_left step_line ls seg_init). intros st.
  revert st. induction ls' as [|l ls' IH]; intros st; simpl.
  - apply flush_appends.
  - destruct (IH (step_line st l)) as [new ->].
    destruct (step_appends st l) as [new' ->].
    rewrite <- app_assoc. eexists. reflexivity.
Qed.

(** ** No text is dropped *)

Lemma flush_sound (st : seg) :
  sound st ->
  sound (flush st) /\ (has_content st -> html_parts (flush st) <> []).
Proof.
  intros [Hp Ht].
  destruct st as [h p l]. cbn [html_parts current_paragraph] in Hp, Ht.
  assert (U : forall items, ul_block items <> []) by discriminate.
  assert (P : p <> [] ->
              exists x y, strip (join (py " ") p) = x :: y).
  { intros Hne. destruct (join_trimmed (py " ") p Hne Ht) as (J & Jl & Jr).
    rewrite (strip_trimmed _ Jl Jr).
    destruct (join (py " ") p) as [|x y]; [congruence|]. now exists x, y. }
  unfold flush, flush_list, flush_paragraph, sound, has_content.
  destruct l as [|i il]; cbn [html_parts current_paragraph current_list].
  - destruct p as [|q qs]; cbn [html_parts current_paragraph current_list].
    + split; [split; [exact Hp|constructor]|]. intuition congruence.
    + destruct (P ltac:(discriminate)) as (x & y & ->).
      cbn [html_parts current_paragraph]. split.
      * split; [|constructor]. apply Forall_app. split; [exact Hp|].
        constructor; [discriminate|constructor].
      * intros _. now destruct h.
  - destruct p as [|q qs]; cbn [html_parts current_paragraph current_list].
    + split.
      * split; [|constructor]. apply Forall_app. split; [exact Hp|].
        constructor; [apply U|constructor].
      * intros _. now destruct h.
    + destruct (P ltac:(discriminate)) as (x & y & ->).
      cbn [html_parts current_paragraph]. split.
      * split; [|constructor]. apply Forall_app. split.
        -- apply Forall_app. split; [exact Hp|].
           constructor; [apply U|constructor].
        -- constructor; [discriminate|constructor].
      * intros _. now destruct h.
Qed.

Lemma step_sound (st : seg) (line : str) :
  sound st ->
  sound (step_line st line)
  /\ (has_content st -> has_content (step_line st line))
  /\ (classify line <> Blank -> has_content (step_line st line)).
Proof.
  intros Hs. destruct (flush_sound st Hs) as [[Fp Ft] Fc].
  destruct (flush_clears st) as [C1 C2].
  destruct (classify line) eqn:K.
  - rewrite (step_blank st line K). split; [now split|].
    split; [|congruence]. intros H. left. now apply Fc.
  - unfold classify in K.
    destruct (strip line) as [|c l] eqn:E; [discriminate|].
    destruct (header_match (c :: l)) as [[n g]|] eqn:H;
      [|destruct (is_list_item _); discriminate].
    rewrite <- E in H. rewrite (step_heading st line n g H).
    assert (N : has_content
                  (Seg (html_parts (flush st) ++ [h_block n (strip g)])
                     [] [])).
    { left. cbn [html_parts]. now destruct (html_parts (flush st)). }
    split; [|now split].
    split; [|constructor]. cbn [html_parts].
    apply Forall_app. split; [exact Fp|].
    constructor; [discriminate|constructor].
  - rewrite (step_list_item st line K).
    destruct Hs as [Hp Ht].
    destruct (current_paragraph st) eqn:P; cbn zeta.
    + split; [split; [exact Hp|constructor]|].
      split; intros _; right; right; cbn [current_list];
        now destruct (current_list st).
    + rewrite C2. split; [split; [exact Fp|constructor]|].
      split; intros _; right; right; discriminate.
  - rewrite (step_plain st line K).
    assert (T : trimmed (strip line)).
    { split; [|split; [apply strip_left|apply strip_right]].
      unfold classify in K. now destruct (strip line). }
    destruct Hs as [Hp Ht].
    destruct (current_list st) eqn:L; cbn zeta.
    + split.
      * split; [exact Hp|]. cbn [current_paragraph].
        apply Forall_app. split; [exact Ht|now constructor].
      * split; intros _; right; left; cbn [current_paragraph];
          now destruct (current_paragraph st).
    + rewrite C1. split.
      * split; [exact Fp|]. now constructor.
      * split; intros _; right; left; discriminate.
Qed.

Lemma run_sound (ls : list str) (st : seg) :
  sound st ->
  sound (fold_left step_line ls st)
  /\ (has_content st \/ Exists (fun l => classify l <> Blank) ls ->
      has_content (fold_left step_line ls st)).
Proof.
  revert st; induction ls as [|l ls IH]; intros st Hs; simpl.
  - split; [exact Hs|]. intros [H|H]; [exact H|inversion H].
  - destruct (step_sound st l Hs) as (S1 & S2 & S3).
    destruct (IH _ S1) as [R1 R2]. split; [exact R1|].
    intros [H|H]; apply R2.
    + left. now apply S2.
    + inversion H; subst; [left; now apply S3|now right].
Qed.

Lemma join_nonempty (sep : str) (parts : list str) :
  parts <> [] -> Forall (fun p => p <> []) parts -> join sep parts <> [].
Proof.
  destruct parts as [|p ps]; [congruence|]. intros _ H.
  inversion H as [|? ? Hp _]; subst.
  destruct ps; simpl; [exact Hp|].
  destruct p; [congruence|discriminate].
Qed.

Lemma space_of_blank_lines (s : str) :
  Forall (fun l => classify l = Blank) (split_nl s) ->
  Forall (fun c => isspace c = true) s.
Proof.
  assert (B : forall l, classify l = Blank ->
                        Forall (fun c => isspace c = true) l).
  { intros l K. apply strip_nil_iff. unfold classify in K.
    destruct (strip l); [reflexivity|].
    destruct (header_match _) as [[n g]|]; [discriminate|].
    destruct (is_list_item _); discriminate. }
  induction s as [|c s IH]; [constructor|].
  rewrite split_nl_cons.
  destruct (N.eqb_spec c NL) as [->|Hc].
  - intros H. inversion H; subst. constructor; [reflexivity|auto].
  - pose proof (split_nl_nonempty s) as Hne.
    destruct (split_nl s) as [|l ls]; [congruence|].
    intros H. inversion H as [|? ? Hl Hls]; subst.
    apply B in Hl. inversion Hl; subst.
    constructor; [assumption|]. apply IH.
    constructor; [|exact Hls].
    unfold classify. replace (strip l) with (@nil char); [reflexivity|].
    symmetry. now apply strip_nil_iff.
Qed.

(** X: the converter returns the empty string exactly for a document of
    white space only: a line that is not blank always leaves a block in
    the output. *)
Theorem md_to_html_empty_iff_blank (md_text : str) :
  md_to_html md_text = []
  <-> Forall (fun c => isspace c = true) md_text.
Proof.
  split.
  - intros E. apply space_of_blank_lines.
    apply Forall_forall. intros l Hl.
    destruct (classify l) eqn:K; [reflexivity|exfalso..].
    all: assert (Ex : Exists (fun l => classify l <> Blank)
                        (split_nl md_text))
      by (apply Exists_exists; exists l; split; [exact Hl|congruence]).
    all: destruct (run_sound (split_nl md_text) seg_init) as [R1 R2];
      [split; constructor|].
    all: destruct (flush_sound _ R1) as [[F1 _] F2].
    all: apply (join_nonempty [NL] _ (F2 (R2 (or_intror Ex))) F1).
    all: exact E.
  - intros H. apply blank_lines_of_space in H.
    unfold md_to_html, run_lines.
    rewrite fold_blank; [reflexivity|exact H|apply split_nl_nonempty].
Qed.

(** ** Instances *)

Lemma process_inline_fixed_points_witness :
  process_inline (py "2 * 3 and a_b") = py "2 * 3 and a_b".
Proof.
  apply (proj2 (process_inline_fixed_points (py "2 * 3 and a_b"))).
  repeat split; reflexivity.
Defined.

Lemma md_to_html_empty_iff_blank_witness :
  md_to_html (py "  " ++ [NL; 9; NL]) = [].
Proof.
  apply (proj2 (md_to_html_empty_iff_blank (py "  " ++ [NL; 9; NL]))).
  repeat constructor.
Defined.

Lemma retry_result_witness :
  fst (translate_chunk_with_retry
         (fun k => if (k <? 2)%nat then Raised (py "429 quota")
                   else Returned (py "ok")) 5 10)
  = Some (py "ok").
Proof.
  apply (proj2 (retry_result
                  (fun k => if (k <? 2)%nat then Raised (py "429 quota")
                            else Returned (py "ok")) 5 10 (py "ok"))).
  exists 2%nat. split; [lia|]. split; [reflexivity|].
  intros j Hj. exists (py "429 quota").
  destruct j as [|[|j]]; [split; reflexivity..|lia].
Defined.

Lemma extract_text_pages_in_document_witness : (0 <= 2 < 3)%Z.
Proof.
  apply (proj2 (extract_text_pages_in_document 3 (-4) 10 2)).
  right. right. left. reflexivity.
Defined.

Lemma extract_text_empty_witness :
  translate_pdf.extract_text 10 (fun _ => py "page") 5 1 = [].
Proof.
  apply (proj2 (extract_text_empty 10 (fun _ => py "page") 5 1)). lia.
Defined.

Lemma sanitize_filename_clean_witness :
  invalid_char 95 = false /\ 95 <> 32.
Proof.
  apply (proj1 (sanitize_filename_clean (py " a/b")) 95).
  left. reflexivity.
Defined.

Lemma extract_text_empty_iff_blank_witness :
  run_gemini_translation.extract_text [py "  "; [NL; 9]] = [].
Proof.
  apply (proj2 (extract_text_empty_iff_blank [py "  "; [NL; 9]])).
  repeat constructor.
Defined.
